(** * go-memdb: schema validation, database root, change records and
      filtered iteration

    A shallow embedding of the schema types with their [Validate]
    methods, of [MemDB] with [NewMemDB], [initialize], [Snapshot] and
    [indexPath], of [Change] and of [FilterIterator].  Go pointers that
    the code may find nil are [option]s, a nil-pointer dereference is the
    outcome [Panic], Go maps that the code walks with [range] are
    association lists given in the order the walk visits them, and the
    persistent radix tree the database is built on is a finite map. *)

From Stdlib Require Import ZArith String Ascii List Bool.
From stdpp Require Import base option list gmap strings.

Set Warnings "-register-all".
Local Open Scope string_scope.

(* ===================================================================== *)
(** ** Go runtime values shared by all files *)
(* ===================================================================== *)

(** What a Go call does: it returns a value or panics (the only panic in
    the modelled code is the dereference of a nil pointer). *)
Inductive outcome (A : Type) : Type :=
| Return (a : A)
| Panic.
Arguments Return {A} a.
Arguments Panic {A}.

Definition bind {A B : Type} (m : outcome A) (k : A → outcome B) : outcome B :=
  match m with
  | Return a => k a
  | Panic => Panic
  end.

(** An argument handed to [fmt.Errorf]: the code passes strings and
    errors only. *)
Inductive fmt_arg (E : Type) : Type :=
| ArgString (s : string)
| ArgError (e : E).
Arguments ArgString {E} s.
Arguments ArgError {E} e.

(** The value built by [fmt.Errorf(format, args...)], kept unrendered:
    the format string and its arguments. *)
Inductive err : Type :=
| Errorf (format : string) (args : list (fmt_arg err)).

(** Go's [error] interface value; [None] is [nil]. *)
Definition error : Type := option err.
Abbreviation nil_error := (@None err) (only parsing).

(** A Go [interface{}] holding dynamic values of type [V]; [None] is the
    nil interface. *)
Definition interface (V : Type) : Type := option V.

(** A Go [map[string]V] as the list of its entries in the order one
    [range] loop visits them.  Go leaves that order unspecified, so a
    statement about a map is a statement about every such list. *)
Module GoMap.
Definition t (V : Type) : Type := list (string * V).

Definition len {V : Type} (m : t V) : nat := length m.

(** [m[k]] in its comma-ok form. *)
Fixpoint lookup {V : Type} (k : string) (m : t V) : option V :=
  match m with
  | [] => None
  | (k', v) :: m' => if String.eqb k k' then Some v else lookup k m'
  end.

(** The lists that are Go maps: no key twice. *)
Definition keys_unique {V : Type} (m : t V) : Prop := NoDup (m.*1).
End GoMap.

(* ===================================================================== *)
(** ** The schema: [DBSchema], [TableSchema], [IndexSchema] *)
(* ===================================================================== *)

(** Modelled from the spec: the interfaces [Indexer], [SingleIndexer] and
    [MultiIndexer] are declared in a file that is not among the sources.  Validation only asks a dynamic indexer value which of the two
    interfaces it implements, so a value is the pair of answers. *)
Record indexer_value : Type := {
  implSingleIndexer : bool;
  implMultiIndexer : bool
}.

(** An [Indexer] interface value; [None] is the nil interface. *)
Definition Indexer : Type := option indexer_value.

(** The comma-ok type assertion [x.(SingleIndexer)]: its [ok]. *)
Definition assertSingleIndexer (x : Indexer) : bool :=
  match x with
  | None => false
  | Some v => implSingleIndexer v
  end.

Module IndexSchema.
Record t : Type := mk {
  Name : string;
  AllowMissing : bool;
  Unique : bool;
  Indexer : Indexer
}.

(** [func (s *IndexSchema) Validate() error] *)
Definition Validate (s : option t) : outcome error :=
  match s with
  | None => Panic
  | Some s =>
      if String.eqb (Name s) "" then
        Return (Some (Errorf "missing index name" []))
      else
        match Indexer s with
        | None =>
            Return (Some (Errorf "missing index function for '%s'"
                                 [ArgString (Name s)]))
        | Some v =>
            if implSingleIndexer v then Return nil_error
            else if implMultiIndexer v then Return nil_error
            else
              Return (Some (Errorf
                "indexer for '%s' must be a SingleIndexer or MultiIndexer"
                [ArgString (Name s)]))
        end
  end.
End IndexSchema.

Module TableSchema.
Record t : Type := mk {
  Name : string;
  Indexes : GoMap.t (option IndexSchema.t)
}.

(** The loop [for name, index := range s.Indexes] over the entries that
    are still to be visited. *)
Fixpoint rangeIndexes (l : GoMap.t (option IndexSchema.t)) : outcome error :=
  match l with
  | [] => Return nil_error
  | (name, index) :: rest =>
      match index with
      | None => Panic
      | Some ix =>
          if negb (String.eqb name (IndexSchema.Name ix)) then
            Return (Some (Errorf "index name mis-match for '%s'"
                                 [ArgString name]))
          else
            bind (IndexSchema.Validate index) (λ e,
              match e with
              | Some e' =>
                  Return (Some (Errorf "index %q: %s"
                                       [ArgString name; ArgError e']))
              | None => rangeIndexes rest
              end)
      end
  end.

(** [func (s *TableSchema) Validate() error] *)
Definition Validate (s : option t) : outcome error :=
  match s with
  | None => Panic
  | Some s =>
      if String.eqb (Name s) "" then
        Return (Some (Errorf "missing table name" []))
      else if Nat.eqb (GoMap.len (Indexes s)) 0 then
        Return (Some (Errorf "missing table indexes for '%s'"
                             [ArgString (Name s)]))
      else
        match GoMap.lookup "id" (Indexes s) with
        | None => Return (Some (Errorf "must have id index" []))
        | Some None => Panic
        | Some (Some id) =>
            if negb (IndexSchema.Unique id) then
              Return (Some (Errorf "id index must be unique" []))
            else if negb (assertSingleIndexer (IndexSchema.Indexer id)) then
              Return (Some (Errorf "id index must be a SingleIndexer" []))
            else rangeIndexes (Indexes s)
        end
  end.
End TableSchema.

Module DBSchema.
Record t : Type := mk {
  Tables : GoMap.t (option TableSchema.t)
}.

(** The loop [for name, table := range s.Tables]. *)
Fixpoint rangeTables (l : GoMap.t (option TableSchema.t)) : outcome error :=
  match l with
  | [] => Return nil_error
  | (name, table) :: rest =>
      match table with
      | None => Panic
      | Some tb =>
          if negb (String.eqb name (TableSchema.Name tb)) then
            Return (Some (Errorf "table name mis-match for '%s'"
                                 [ArgString name]))
          else
            bind (TableSchema.Validate table) (λ e,
              match e with
              | Some e' =>
                  Return (Some (Errorf "table %q: %s"
                                       [ArgString name; ArgError e']))
              | None => rangeTables rest
              end)
      end
  end.

(** [func (s *DBSchema) Validate() error] *)
Definition Validate (s : option t) : outcome error :=
  match s with
  | None => Return (Some (Errorf "schema is nil" []))
  | Some s =>
      if Nat.eqb (GoMap.len (Tables s)) 0 then
        Return (Some (Errorf "schema has no tables defined" []))
      else rangeTables (Tables s)
  end.
End DBSchema.

(* ===================================================================== *)
(** ** Change records ([changes.go]) *)
(* ===================================================================== *)

Module Change.
Section Change.
Context {V : Type}.

Record t : Type := mk {
  Table : string;
  Before : interface V;
  After : interface V;
  primaryKey : string
}.

(** [x == nil] and [x != nil] on an interface value. *)
Definition is_nil (x : interface V) : bool :=
  match x with None => true | Some _ => false end.

Definition Created (m : t) : bool := is_nil (Before m) && negb (is_nil (After m)).
Definition Updated (m : t) : bool := negb (is_nil (Before m)) && negb (is_nil (After m)).
Definition Deleted (m : t) : bool := negb (is_nil (Before m)) && is_nil (After m).
End Change.
Arguments t V : clear implicits.
End Change.

(** [type Changes []Change] *)
Definition Changes (V : Type) : Type := list (Change.t V).

(* ===================================================================== *)
(** ** The database: [MemDB] *)
(* ===================================================================== *)

(** The collaborator [github.com/hashicorp/go-immutable-radix], at the
    boundary the database uses: a persistent tree is an immutable finite
    map from byte strings to values, and [Insert] yields a new tree, the
    value it replaced and whether it replaced one. *)
Module iradix.
Abbreviation Tree A := (gmap string A) (only parsing).

Definition New {A : Type} : Tree A := ∅.

Definition Insert {A : Type} (t : Tree A) (k : string) (v : A)
  : Tree A * option A * bool :=
  (<[k := v]> t, t !! k, bool_decide (is_Some (t !! k))).

Definition Get {A : Type} (t : Tree A) (k : string) : option A * bool :=
  (t !! k, bool_decide (is_Some (t !! k))).

(** A [*iradix.Tree]; [None] is the nil pointer, and a pointer that is not
    nil points to a tree that the library built. *)
Abbreviation TreePtr A := (option (gmap string A)) (only parsing).

(** [t.Insert(k, v)] through a pointer: on a nil tree the method
    dereferences its receiver and panics. *)
Definition PtrInsert {A : Type} (t : TreePtr A) (k : string) (v : A)
  : outcome (TreePtr A * option A * bool) :=
  match t with
  | None => Panic
  | Some t =>
      let '(t', old, did) := Insert t k v in
      Return (Some t', old, did)
  end.
End iradix.

(** [func indexPath(table, index string) []byte] *)
Definition indexPath (table index : string) : string :=
  table ++ "." ++ index.

(** A [sync.Mutex] as seen by one goroutine: held or not. *)
Inductive Mutex : Type := Unlocked | Locked.

(** Addresses of allocated [MemDB] values. *)
Abbreviation loc := positive (only parsing).

Module MemDB.
Section MemDB.
(** The objects stored in the index trees. *)
Context {V : Type}.

(** [root] is the [unsafe.Pointer] with a [*iradix.Tree] underneath: it
    is nil in a [MemDB] that [NewMemDB] did not build (the zero value). *)
Record t : Type := mk {
  schema : option DBSchema.t;
  root : iradix.TreePtr (iradix.Tree V);
  primary : bool;
  writer : Mutex
}.

Definition set_root (r : iradix.TreePtr (iradix.Tree V)) (d : t) : t :=
  mk (schema d) r (primary d) (writer d).

(** The allocated databases, by address. *)
#[local] Abbreviation heap := (gmap positive t) (only parsing).

(** A [*MemDB]; [None] is nil. *)
Definition ptr : Type := option loc.

(** Code that reads and writes the heap and may panic. *)
Definition M (A : Type) : Type := heap → outcome (A * heap).

Definition ret {A : Type} (a : A) : M A := λ h, Return (a, h).

Definition mbind {A B : Type} (m : M A) (k : A → M B) : M B :=
  λ h, match m h with
       | Return (a, h') => k a h'
       | Panic => Panic
       end.

Definition lift {A : Type} (o : outcome A) : M A :=
  λ h, match o with
       | Return a => Return (a, h)
       | Panic => Panic
       end.

Definition panic {A : Type} : M A := λ _, Panic.

(** [*p] *)
Definition load (p : ptr) : M t :=
  λ h, match p with
       | None => Panic
       | Some l => match h !! l with
                   | Some d => Return (d, h)
                   | None => Panic
                   end
       end.

(** [p.root = r] *)
Definition store_root (p : ptr) (r : iradix.TreePtr (iradix.Tree V)) : M unit :=
  λ h, match p with
       | None => Panic
       | Some l => match h !! l with
                   | Some d => Return (tt, <[l := set_root r d]> h)
                   | None => Panic
                   end
       end.

(** [&MemDB{...}] *)
Definition alloc (d : t) : M ptr :=
  λ h, let l := fresh (dom h) in Return (Some l, <[l := d]> h).
End MemDB.
Arguments t V : clear implicits.
Abbreviation heap V := (gmap positive (t V)) (only parsing).
Arguments M V A : clear implicits.

Notation "'let*' x := m 'in' k" := (mbind m (λ x, k))
  (at level 10, x name, m at level 100, k at level 200, only parsing).

Section Methods.
Context {V : Type}.

(** [func (db *MemDB) getRoot() *iradix.Tree] *)
Definition getRoot (db : ptr) : M V (iradix.TreePtr (iradix.Tree V)) :=
  let* d := load db in
  ret (root d).

(** The loop [for iName := range tableSchema.Indexes]. *)
Fixpoint rangeIndexes (tName : string) (l : GoMap.t (option IndexSchema.t))
    (root : iradix.TreePtr (iradix.Tree V))
    : outcome (iradix.TreePtr (iradix.Tree V)) :=
  match l with
  | [] => Return root
  | (iName, _) :: rest =>
      let index := iradix.New in
      let path := indexPath tName iName in
      bind (iradix.PtrInsert root path index) (λ '(root', _, _),
        rangeIndexes tName rest root')
  end.

(** The loop [for tName, tableSchema := range db.schema.Tables]. *)
Fixpoint rangeTables (l : GoMap.t (option TableSchema.t))
    (root : iradix.TreePtr (iradix.Tree V))
    : outcome (iradix.TreePtr (iradix.Tree V)) :=
  match l with
  | [] => Return root
  | (tName, tableSchema) :: rest =>
      match tableSchema with
      | None => Panic
      | Some ts =>
          bind (rangeIndexes tName (TableSchema.Indexes ts) root)
               (rangeTables rest)
      end
  end.

(** [func (db *MemDB) initialize() error] *)
Definition initialize (db : ptr) : M V error :=
  let* root := getRoot db in
  let* d := load db in
  match schema d with
  | None => panic
  | Some s =>
      let* root' := lift (rangeTables (DBSchema.Tables s) root) in
      let* _ := store_root db root' in
      ret nil_error
  end.

(** [func NewMemDB(schema *DBSchema)], returning a [*MemDB] and an [error] *)
Definition NewMemDB (schema : option DBSchema.t) : M V (ptr * error) :=
  let* e := lift (DBSchema.Validate schema) in
  match e with
  | Some _ => ret (None, e)
  | None =>
      let* db := alloc (mk schema (Some iradix.New) true Unlocked) in
      let* e := initialize db in
      match e with
      | Some _ => ret (None, e)
      | None => ret (db, nil_error)
      end
  end.

(** [func (db *MemDB) Snapshot() *MemDB] *)
Definition Snapshot (db : ptr) : M V ptr :=
  let* d := load db in
  let* r := getRoot db in
  alloc (mk (schema d) r false Unlocked).
End Methods.
End MemDB.

(* ===================================================================== *)
(** ** Filtered iteration ([filter.go]) *)
(* ===================================================================== *)

(** Modelled from the spec: the interface [ResultIterator] is declared in
    a file that is not among the sources.  An iterator is a state that
    [Next] advances, yielding a stored object or nil, and that carries a
    watch channel. *)
Module ResultIterator.
Class C (I V : Type) : Type := {
  WatchCh : I → positive;
  Next : I → interface V * I
}.

(** [k] successive calls of [Next]: the values they yield and the state
    they leave. *)
Fixpoint pull {I V : Type} `{C I V} (k : nat) (it : I) : list (interface V) * I :=
  match k with
  | 0 => ([], it)
  | S k' =>
      let (v, it') := Next it in
      let (vs, it'') := pull k' it' in
      (v :: vs, it'')
  end.
End ResultIterator.

(** Modelled from the spec: the iterator of the spec's filter property,
    "an iterator yielding [1,2,3,4]": it yields the values of a list in
    order, and nil on every call after the last one. *)
#[export] Instance list_iterator {V : Type} : ResultIterator.C (list V) V := {|
  ResultIterator.WatchCh := λ _, 1%positive;
  ResultIterator.Next := λ l,
    match l with
    | [] => (None, [])
    | x :: l' => (Some x, l')
    end
|}.

(** [type FilterFunc func(interface{}) bool] *)
Definition FilterFunc (V : Type) : Type := interface V → bool.

Module FilterIterator.
Section FilterIterator.
Context {V I : Type} `{ResultIterator.C I V}.

(** Both fields are taken non-nil: a nil [iter] or a nil [filter] makes
    the first use panic. *)
Record t : Type := mk {
  filter : FilterFunc V;
  iter : I
}.

Definition NewFilterIterator (iter : I) (filter : FilterFunc V) : t :=
  mk filter iter.

Definition WatchCh (f : t) : positive := ResultIterator.WatchCh (iter f).

(** [func (f *FilterIterator) Next() interface{}]: at most [fuel] turns
    of the [for] loop.  The first component lists, in order, the
    arguments [f.filter] was called with; the second is the returned
    value with the iterator as the call leaves it, or [None] while the
    loop is still running. *)
Fixpoint Next (fuel : nat) (f : t)
    : list (interface V) * option (interface V * t) :=
  match fuel with
  | 0 => ([], None)
  | S fuel' =>
      let (value, it') := ResultIterator.Next (iter f) in
      let f' := mk (filter f) it' in
      match value with
      | None => ([], Some (value, f'))
      | Some _ =>
          if negb (filter f value) then ([value], Some (value, f'))
          else
            let (calls, r) := Next fuel' f' in
            (value :: calls, r)
      end
  end.
End FilterIterator.
Arguments t V I : clear implicits.
End FilterIterator.

(* ===================================================================== *)
(** ** The vocabulary of the schema properties *)
(* ===================================================================== *)

(** The table declares no index under the key ["id"]. *)
Definition lacks_id (tb : TableSchema.t) : Prop :=
  GoMap.lookup "id" (TableSchema.Indexes tb) = None.

(** The table's ["id"] index is not marked [Unique]. *)
Definition id_not_unique (tb : TableSchema.t) : Prop :=
  ∃ id, GoMap.lookup "id" (TableSchema.Indexes tb) = Some (Some id)
        ∧ IndexSchema.Unique id = false.

(** The indexer of the table's ["id"] index is not a [SingleIndexer]
    (a [MultiIndexer] only, for one). *)
Definition id_not_single (tb : TableSchema.t) : Prop :=
  ∃ id, GoMap.lookup "id" (TableSchema.Indexes tb) = Some (Some id)
        ∧ assertSingleIndexer (IndexSchema.Indexer id) = false.

(** Some table of the schema has one of the three defects of its primary
    index. *)
Definition id_defect (s : DBSchema.t) : Prop :=
  ∃ name tb, (name, Some tb) ∈ DBSchema.Tables s
             ∧ (lacks_id tb ∨ id_not_unique tb ∨ id_not_single tb).

(** No entry of the table map or of an index map is a nil pointer. *)
Definition no_nil_entries (s : DBSchema.t) : Prop :=
  ∀ name tb, (name, tb) ∈ DBSchema.Tables s →
    ∃ t, tb = Some t
         ∧ ∀ k ix, (k, ix) ∈ TableSchema.Indexes t → ix ≠ None.

(** A well-formed index entry: its name is the map key and is not empty,
    and its indexer is a non-nil [SingleIndexer] or [MultiIndexer]. *)
Definition index_ok (key : string) (ix : option IndexSchema.t) : Prop :=
  ∃ i, ix = Some i ∧ IndexSchema.Name i = key ∧ key ≠ ""
       ∧ ∃ v, IndexSchema.Indexer i = Some v
              ∧ (implSingleIndexer v = true ∨ implMultiIndexer v = true).

(** A well-formed table entry: its name is the map key and is not empty,
    it holds a unique single-value ["id"] index, and every index entry is
    well formed. *)
Definition table_ok (key : string) (tb : option TableSchema.t) : Prop :=
  ∃ t, tb = Some t ∧ TableSchema.Name t = key ∧ key ≠ ""
       ∧ (∃ id, GoMap.lookup "id" (TableSchema.Indexes t) = Some (Some id)
                ∧ IndexSchema.Unique id = true
                ∧ assertSingleIndexer (IndexSchema.Indexer id) = true)
       ∧ ∀ k ix, (k, ix) ∈ TableSchema.Indexes t → index_ok k ix.

(** A well-formed schema: not nil, at least one table, every table entry
    well formed. *)
Definition well_formed (s : option DBSchema.t) : Prop :=
  ∃ d, s = Some d ∧ DBSchema.Tables d ≠ []
       ∧ ∀ name tb, (name, tb) ∈ DBSchema.Tables d → table_ok name tb.

(** *** Schemas used as concrete inputs *)

Definition single_indexer : Indexer :=
  Some {| implSingleIndexer := true; implMultiIndexer := false |}.
Definition multi_indexer : Indexer :=
  Some {| implSingleIndexer := false; implMultiIndexer := true |}.
Definition other_indexer : Indexer :=
  Some {| implSingleIndexer := false; implMultiIndexer := false |}.

Definition id_index : IndexSchema.t := IndexSchema.mk "id" false true single_indexer.
Definition tags_index : IndexSchema.t := IndexSchema.mk "tags" true false multi_indexer.

(** One table ["users"] with a primary index and a multi-value index. *)
Definition users_table : TableSchema.t :=
  TableSchema.mk "users" [("id", Some id_index); ("tags", Some tags_index)].
Definition users_schema : DBSchema.t :=
  DBSchema.mk [("users", Some users_table)].

(** A table that declares no ["id"] index. *)
Definition noid_table : TableSchema.t :=
  TableSchema.mk "b" [("tags", Some tags_index)].
Definition noid_schema : DBSchema.t :=
  DBSchema.mk [("b", Some noid_table)].

(** The table map holds a nil pointer under ["a"], visited first, and the
    table without ["id"] under ["b"]. *)
Definition nil_entry_schema : DBSchema.t :=
  DBSchema.mk [("a", None); ("b", Some noid_table)].

(** A database over the ["users"] schema whose root is still empty. *)
Definition users_db : MemDB.t nat :=
  MemDB.mk (Some users_schema) (Some ∅) true Unlocked.

(* ===================================================================== *)
(** ** The vocabulary of the root-key and iteration properties *)
(* ===================================================================== *)

(** The string holds the byte ['.']. *)
Fixpoint has_dot (s : string) : bool :=
  match s with
  | EmptyString => false
  | String c s' => Ascii.eqb c "." || has_dot s'
  end.

(** Two tables whose names differ by a dotted suffix that an index name of
    the other makes up for. *)
Definition dotted_schema : DBSchema.t :=
  DBSchema.mk
    [("a", Some (TableSchema.mk "a"
                   [("id", Some id_index);
                    ("b.id", Some (IndexSchema.mk "b.id" false false single_indexer))]));
     ("a.b", Some (TableSchema.mk "a.b" [("id", Some id_index)]))].

(** Modelled from the spec: an iterator whose [Next] may yield nil as "a
    transient empty step": it yields the entries of a list, some of which
    are nil, and nil once the list is used up. *)
Record gapped (V : Type) : Type := Gapped { pending : list (interface V) }.
Arguments Gapped {V} pending.
Arguments pending {V} g.

#[export] Instance gapped_iterator {V : Type} : ResultIterator.C (gapped V) V := {|
  ResultIterator.WatchCh := λ _, 1%positive;
  ResultIterator.Next := λ g,
    match pending g with
    | [] => (None, Gapped [])
    | v :: l' => (v, Gapped l')
    end
|}.

(** [n] successive calls of [FilterIterator.Next], each allowed [fuel]
    turns of its loop: the values they return, in order. *)
Fixpoint drain {V I : Type} `{ResultIterator.C I V} (fuel n : nat)
    (f : FilterIterator.t V I) : list (interface V) :=
  match n with
  | 0 => []
  | S n' =>
      match (FilterIterator.Next fuel f).2 with
      | Some (v, f') => v :: drain fuel n' f'
      | None => []
      end
  end.

(** The values of [l] that the predicate does not reject, in the order of
    [l]. *)
Definition survivors {V : Type} (p : FilterFunc V) (l : list V) : list V :=
  List.filter (λ x, negb (p (Some x))) l.

(** [l] without its longest prefix of rejected values. *)
Fixpoint skip_rejected {V : Type} (p : FilterFunc V) (l : list V) : list V :=
  match l with
  | [] => []
  | x :: l' => if p (Some x) then skip_rejected p l' else l
  end.

(** The predicate of the spec's filter property: it rejects the even
    numbers. *)
Definition reject_even : FilterFunc Z :=
  λ v, match v with
       | Some n => Z.even n
       | None => false
       end.

(* ===================================================================== *)
(** ** The vocabulary of the further properties *)
(* ===================================================================== *)

(** The root keys of the indexes that an index map declares for the table
    [tName], in range order. *)
Definition index_paths (tName : string) (l : GoMap.t (option IndexSchema.t))
  : list string :=
  (λ e, indexPath tName e.1) <$> l.

(** The root keys of the indexes that the tables of a table map declare,
    in range order; a nil table declares none. *)
Fixpoint declared_paths (l : GoMap.t (option TableSchema.t)) : list string :=
  match l with
  | [] => []
  | (tName, Some ts) :: rest =>
      (index_paths tName (TableSchema.Indexes ts) ++ declared_paths rest)%list
  | (_, None) :: rest => declared_paths rest
  end.


(** A database over the ["users"] schema whose root holds a stored object
    in the tree of a declared index and a tree under a key that no index
    declares. *)
Definition stale_db : MemDB.t nat :=
  MemDB.mk (Some users_schema)
    (Some (<["users.id" := {["k" := 7]}]> {["spare" := {["k" := 8]}]}))
    true Locked.

(** A [MemDB] over the ["users"] schema that [NewMemDB] did not build:
    its root is nil. *)
Definition zero_root_db : MemDB.t nat :=
  MemDB.mk (Some users_schema) None false Unlocked.

(** Two tables that differ at most in the order their index maps are
    listed in. *)
Definition same_table (t t' : TableSchema.t) : Prop :=
  TableSchema.Name t = TableSchema.Name t'
  ∧ ∀ e, e ∈ TableSchema.Indexes t ↔ e ∈ TableSchema.Indexes t'.

Definition same_table_ptr (tb tb' : option TableSchema.t) : Prop :=
  match tb, tb' with
  | Some t, Some t' => same_table t t'
  | None, None => True
  | _, _ => False
  end.

(** Two table maps that differ at most in the order they and their index
    maps are listed in. *)
Definition same_tables (l l' : GoMap.t (option TableSchema.t)) : Prop :=
  (∀ k tb, (k, tb) ∈ l → ∃ tb', (k, tb') ∈ l' ∧ same_table_ptr tb tb')
  ∧ (∀ k tb', (k, tb') ∈ l' → ∃ tb, (k, tb) ∈ l ∧ same_table_ptr tb tb').

(** Every index map of the table map is a Go map: no key twice. *)
Definition index_keys_unique (l : GoMap.t (option TableSchema.t)) : Prop :=
  ∀ k t, (k, Some t) ∈ l → GoMap.keys_unique (TableSchema.Indexes t).

(** A table without a name and a table without indexes. *)
Definition unnamed_table : TableSchema.t := TableSchema.mk "" [].
Definition bare_table : TableSchema.t := TableSchema.mk "bare" [].


(** The ["users"] schema with its index map listed in the other order. *)
Definition users_schema_swapped : DBSchema.t :=
  DBSchema.mk
    [("users", Some (TableSchema.mk "users"
                       [("tags", Some tags_index); ("id", Some id_index)]))].


(** *** Transactions opened on the database: [MemDB.Txn] *)

(** What a call that may wait for a mutex does: it finishes, by a return
    or a panic, or it blocks in [Lock] because the mutex is held. *)
Inductive waits (A : Type) : Type :=
| Finishes (o : outcome A)
| Blocks.
Arguments Finishes {A} o.
Arguments Blocks {A}.

(** [m.Lock()] as the calling goroutine sees it while no other goroutine
    runs: it takes a free mutex; on a held one it does not return. *)
Definition Lock (m : Mutex) : option Mutex :=
  match m with
  | Unlocked => Some Locked
  | Locked => None
  end.

(** Modelled from the spec: the struct [Txn] is declared in a file that is
    not among the sources; its fields here are the three that the
    composite literal in [MemDB.Txn] sets.  The handle that
    [db.getRoot().Txn()] opens on the radix tree is held as the tree it
    was opened on; on a nil tree the method dereferences its receiver and
    panics. *)
Module Txn.
Record t (V : Type) : Type := mk {
  db : MemDB.ptr;
  write : bool;
  rootTxn : iradix.Tree (iradix.Tree V)
}.
Arguments mk {V} db write rootTxn.
Arguments db {V} t.
Arguments write {V} t.
Arguments rootTxn {V} t.
End Txn.

(** [func (db *MemDB) Txn(write bool) *Txn] *)
Definition MemDB_Txn {V : Type} (db : MemDB.ptr) (write : bool)
    (h : MemDB.heap V) : waits (Txn.t V * MemDB.heap V) :=
  let construct := λ h1 : MemDB.heap V,
    Finishes (bind (MemDB.getRoot db h1)
                (λ '(root, h2),
                   match root with
                   | None => Panic
                   | Some r => Return (Txn.mk db write r, h2)
                   end)) in
  if write then
    match db with
    | None => Finishes Panic
    | Some l =>
        match h !! l with
        | None => Finishes Panic
        | Some d =>
            match Lock (MemDB.writer d) with
            | None => Blocks
            | Some m =>
                construct (<[l := MemDB.mk (MemDB.schema d) (MemDB.root d)
                                     (MemDB.primary d) m]> h)
            end
        end
    end
  else construct h.


(** *** Filters over filters *)

(** A [FilterIterator] has [Next] and [WatchCh] and so is a
    [ResultIterator] that can be wrapped again.  Over an iterator that
    yields the values of a list, its loop ends within as many turns as the
    list has values left, and one more; that is the fuel its [Next] is
    run with here. *)
#[export] Instance filter_list_iterator {V : Type}
  : ResultIterator.C (FilterIterator.t V (list V)) V := {|
  ResultIterator.WatchCh := FilterIterator.WatchCh;
  ResultIterator.Next := λ f,
    match (FilterIterator.Next (S (List.length (FilterIterator.iter f))) f).2 with
    | Some r => r
    | None => (None, f)
    end
|}.

(** The predicate that rejects what either of two predicates rejects. *)
Definition either {V : Type} (p1 p2 : FilterFunc V) : FilterFunc V :=
  λ v, p1 v || p2 v.

(** The values of [l] that one call of [Next] pulls: the rejected values
    at the front and the first value that is not rejected. *)
Fixpoint pulled {V : Type} (p : FilterFunc V) (l : list V) : list V :=
  match l with
  | [] => []
  | x :: l' => if p (Some x) then x :: pulled p l' else [x]
  end.

(** [n] successive calls of [FilterIterator.Next], each allowed [fuel]
    turns of its loop: the arguments the predicate is called with, in
    order. *)
Fixpoint drain_calls {V I : Type} `{ResultIterator.C I V} (fuel n : nat)
    (f : FilterIterator.t V I) : list (interface V) :=
  match n with
  | 0 => []
  | S n' =>
      let (calls, r) := FilterIterator.Next fuel f in
      match r with
      | Some (_, f') => (calls ++ drain_calls fuel n' f')%list
      | None => calls
      end
  end.

(** The predicate that rejects the multiples of three. *)
Definition reject_threes : FilterFunc Z :=
  λ v, match v with
       | Some n => Z.eqb (n mod 3) 0
       | None => false
       end.

(* ===================================================================== *)
(** ** Change classification *)
(* ===================================================================== *)

Lemma is_nil_true {V : Type} (x : interface V) : Change.is_nil x = true ↔ x = None.
Proof. destruct x; simpl; split; congruence. Qed.

Lemma is_nil_false {V : Type} (x : interface V) : Change.is_nil x = false ↔ x ≠ None.
Proof. destruct x; simpl; split; congruence. Qed.

(** C2: for every change record, [Created] holds exactly when [Before] is
    nil and [After] is not, [Deleted] exactly when [Before] is not nil and
    [After] is, [Updated] exactly when neither is nil; and no two of the
    three hold of the same record. *)
Theorem change_predicates_classify (V : Type) (m : Change.t V) :
  (Change.Created m = true ↔ Change.Before m = None ∧ Change.After m ≠ None)
  ∧ (Change.Deleted m = true ↔ Change.Before m ≠ None ∧ Change.After m = None)
  ∧ (Change.Updated m = true ↔ Change.Before m ≠ None ∧ Change.After m ≠ None)
  ∧ ¬ (Change.Created m = true ∧ Change.Deleted m = true)
  ∧ ¬ (Change.Created m = true ∧ Change.Updated m = true)
  ∧ ¬ (Change.Deleted m = true ∧ Change.Updated m = true).
Proof.
  unfold Change.Created, Change.Deleted, Change.Updated.
  destruct m as [tbl before after pk]; simpl.
  destruct before, after; simpl; repeat split; try congruence;
    try (intros [? ?]; congruence).
Qed.

(* ===================================================================== *)
(** ** Schema validation *)
(* ===================================================================== *)

Arguments IndexSchema.Validate : simpl never.
Arguments TableSchema.Validate : simpl never.
Arguments DBSchema.Validate : simpl never.

Lemma eqb_empty_false (s : string) : String.eqb s "" = false ↔ s ≠ "".
Proof. apply String.eqb_neq. Qed.

Lemma lookup_elem_of {V : Type} (k : string) (m : GoMap.t V) (v : V) :
  GoMap.lookup k m = Some v → (k, v) ∈ m.
Proof.
  induction m as [|[k' v'] m IH]; simpl; [discriminate|].
  destruct (String.eqb_spec k k') as [->|Hne].
  - intros [= ->]. left.
  - intros Hl. right. auto.
Qed.

Lemma index_validate_returns (i : IndexSchema.t) :
  ∃ e, IndexSchema.Validate (Some i) = Return e.
Proof.
  unfold IndexSchema.Validate.
  destruct (String.eqb (IndexSchema.Name i) ""); [eauto|].
  destruct (IndexSchema.Indexer i) as [v|]; [|eauto].
  destruct (implSingleIndexer v); [eauto|].
  destruct (implMultiIndexer v); eauto.
Qed.

Lemma index_validate_nil (i : IndexSchema.t) :
  IndexSchema.Validate (Some i) = Return nil_error
  ↔ IndexSchema.Name i ≠ ""
    ∧ ∃ v, IndexSchema.Indexer i = Some v
           ∧ (implSingleIndexer v = true ∨ implMultiIndexer v = true).
Proof.
  unfold IndexSchema.Validate.
  destruct (String.eqb_spec (IndexSchema.Name i) "") as [He|Hne].
  { split; [discriminate|]. intros [Hn _]. congruence. }
  destruct (IndexSchema.Indexer i) as [v|].
  2:{ split; [discriminate|]. intros (_ & v & Hv & _). discriminate. }
  destruct (implSingleIndexer v) eqn:Hs.
  { split; [|done]. intros _. split; [done|]. exists v. auto. }
  destruct (implMultiIndexer v) eqn:Hm.
  { split; [|done]. intros _. split; [done|]. exists v. auto. }
  split; [discriminate|].
  intros (_ & w & [= <-] & [?|?]); congruence.
Qed.

Lemma rangeIndexes_nil (l : GoMap.t (option IndexSchema.t)) :
  TableSchema.rangeIndexes l = Return nil_error
  ↔ ∀ k ix, (k, ix) ∈ l → index_ok k ix.
Proof.
  induction l as [|[k ix] l IH]; simpl.
  { split; [|done]. intros _ k ix Hin. inversion Hin. }
  destruct ix as [i|].
  2:{ split; [discriminate|]. intros Hall.
      destruct (Hall k None) as (i & Hi & _); [left|discriminate]. }
  destruct (String.eqb_spec k (IndexSchema.Name i)) as [Hk|Hk]; simpl.
  2:{ split; [discriminate|]. intros Hall.
      destruct (Hall k (Some i)) as (i' & [= <-] & Hn & _); [left|congruence]. }
  destruct (IndexSchema.Validate (Some i)) as [[e|]|] eqn:Hv; simpl.
  - split; [discriminate|]. intros Hall.
    destruct (Hall k (Some i)) as (i' & [= <-] & Hn & Hne & Hix); [left|].
    assert (IndexSchema.Validate (Some i) = Return nil_error) as Hnil
      by (apply index_validate_nil; split; [congruence|done]).
    congruence.
  - apply index_validate_nil in Hv as [Hne Hix].
    rewrite IH. split.
    + intros Hall k' ix' Hin. apply elem_of_cons in Hin as [[= -> ->]|Hin].
      * exists i. repeat split; auto; congruence.
      * auto.
    + intros Hall k' ix' Hin. apply Hall. by right.
  - destruct (index_validate_returns i) as [e He]. congruence.
Qed.

Lemma rangeIndexes_returns (l : GoMap.t (option IndexSchema.t)) :
  (∀ k ix, (k, ix) ∈ l → ix ≠ None) →
  ∃ e, TableSchema.rangeIndexes l = Return e.
Proof.
  induction l as [|[k ix] l IH]; simpl; intros Hall; [eauto|].
  destruct ix as [i|]; [|destruct (Hall k None); [left|done]].
  destruct (negb (String.eqb k (IndexSchema.Name i))); [eauto|].
  destruct (index_validate_returns i) as [[e|] ->]; simpl; [eauto|].
  apply IH. intros k' ix' Hin. apply (Hall k'). by right.
Qed.

Lemma table_validate_nil (t : TableSchema.t) :
  TableSchema.Validate (Some t) = Return nil_error
  ↔ table_ok (TableSchema.Name t) (Some t).
Proof.
  unfold TableSchema.Validate, table_ok.
  destruct (String.eqb_spec (TableSchema.Name t) "") as [He|Hne].
  { split; [discriminate|]. intros (t' & [= <-] & _ & Hn & _). congruence. }
  destruct (Nat.eqb (GoMap.len (TableSchema.Indexes t)) 0) eqn:Hlen.
  { split; [discriminate|]. intros (t' & [= <-] & _ & _ & (id & Hid & _) & _).
    destruct (TableSchema.Indexes t); discriminate. }
  destruct (GoMap.lookup "id" (TableSchema.Indexes t)) as [[id|]|] eqn:Hid.
  - destruct (IndexSchema.Unique id) eqn:Hu; simpl.
    2:{ split; [discriminate|].
        intros (t' & [= <-] & _ & _ & (id' & Hid' & Hu' & _) & _). congruence. }
    destruct (assertSingleIndexer (IndexSchema.Indexer id)) eqn:Hs; simpl.
    2:{ split; [discriminate|].
        intros (t' & [= <-] & _ & _ & (id' & Hid' & _ & Hs') & _). congruence. }
    rewrite rangeIndexes_nil. split.
    + intros Hall. exists t. repeat split; eauto.
    + intros (t' & [= <-] & _ & _ & _ & Hall). done.
  - split; [discriminate|].
    intros (t' & [= <-] & _ & _ & (id' & Hid' & _) & _). congruence.
  - split; [discriminate|].
    intros (t' & [= <-] & _ & _ & (id' & Hid' & _) & _). congruence.
Qed.

Lemma table_validate_returns (t : TableSchema.t) :
  (∀ k ix, (k, ix) ∈ TableSchema.Indexes t → ix ≠ None) →
  ∃ e, TableSchema.Validate (Some t) = Return e.
Proof.
  intros Hall. unfold TableSchema.Validate.
  destruct (String.eqb (TableSchema.Name t) ""); [eauto|].
  destruct (Nat.eqb _ 0); [eauto|].
  destruct (GoMap.lookup "id" (TableSchema.Indexes t)) as [[id|]|] eqn:Hid; [| |eauto].
  - destruct (negb (IndexSchema.Unique id)); [eauto|].
    destruct (negb (assertSingleIndexer _)); [eauto|].
    by apply rangeIndexes_returns.
  - apply lookup_elem_of in Hid. by destruct (Hall _ _ Hid).
Qed.

Lemma rangeTables_nil (l : GoMap.t (option TableSchema.t)) :
  DBSchema.rangeTables l = Return nil_error
  ↔ ∀ k tb, (k, tb) ∈ l → table_ok k tb.
Proof.
  induction l as [|[k tb] l IH]; simpl.
  { split; [|done]. intros _ k tb Hin. inversion Hin. }
  destruct tb as [t|].
  2:{ split; [discriminate|]. intros Hall.
      destruct (Hall k None) as (t & Ht & _); [left|discriminate]. }
  destruct (String.eqb_spec k (TableSchema.Name t)) as [Hk|Hk]; simpl.
  2:{ split; [discriminate|]. intros Hall.
      destruct (Hall k (Some t)) as (t' & [= <-] & Hn & _); [left|congruence]. }
  destruct (TableSchema.Validate (Some t)) as [[e|]|] eqn:Hv; simpl.
  - split; [discriminate|]. intros Hall.
    assert (TableSchema.Validate (Some t) = Return nil_error) as Hnil.
    { apply table_validate_nil. rewrite <- Hk. apply Hall. left. }
    congruence.
  - apply table_validate_nil in Hv. rewrite <- Hk in Hv.
    rewrite IH. split.
    + intros Hall k' tb' Hin. apply elem_of_cons in Hin as [[= -> ->]|Hin]; auto.
    + intros Hall k' tb' Hin. apply Hall. by right.
  - split; [discriminate|]. intros Hall.
    assert (TableSchema.Validate (Some t) = Return nil_error) as Hnil.
    { apply table_validate_nil. rewrite <- Hk. apply Hall. left. }
    congruence.
Qed.

Lemma rangeTables_returns (l : GoMap.t (option TableSchema.t)) :
  (∀ name tb, (name, tb) ∈ l →
     ∃ t, tb = Some t ∧ ∀ k ix, (k, ix) ∈ TableSchema.Indexes t → ix ≠ None) →
  ∃ e, DBSchema.rangeTables l = Return e.
Proof.
  induction l as [|[k tb] l IH]; simpl; intros Hall; [eauto|].
  destruct (Hall k tb) as (t & -> & Hix); [left|].
  destruct (negb (String.eqb k (TableSchema.Name t))); [eauto|].
  destruct (table_validate_returns t Hix) as [[e|] ->]; simpl; [eauto|].
  apply IH. intros k' tb' Hin. apply (Hall k'). by right.
Qed.

Lemma validate_nil_iff (s : option DBSchema.t) :
  DBSchema.Validate s = Return nil_error ↔ well_formed s.
Proof.
  unfold DBSchema.Validate, well_formed.
  destruct s as [d|].
  2:{ split; [discriminate|]. intros (d & [=] & _). }
  destruct (Nat.eqb (GoMap.len (DBSchema.Tables d)) 0) eqn:Hlen.
  { split; [discriminate|]. intros (d' & [= <-] & Hne & _).
    destruct (DBSchema.Tables d); [congruence|discriminate]. }
  rewrite rangeTables_nil. split.
  - intros Hall. exists d. repeat split; auto.
    intros Ht. rewrite Ht in Hlen. discriminate.
  - intros (d' & [= <-] & _ & Hall). done.
Qed.

Lemma validate_returns (s : DBSchema.t) :
  no_nil_entries s → ∃ e, DBSchema.Validate (Some s) = Return e.
Proof.
  intros Hnn. unfold DBSchema.Validate.
  destruct (Nat.eqb _ 0); [eauto|]. by apply rangeTables_returns.
Qed.

Lemma id_defect_not_well_formed (s : DBSchema.t) :
  id_defect s → ¬ well_formed (Some s).
Proof.
  intros (name & tb & Hin & Hdef) (d & [= <-] & _ & Hall).
  destruct (Hall _ _ Hin) as (t & [= <-] & _ & _ & (id & Hid & Hu & Hs) & _).
  destruct Hdef as [Hl|[(id' & Hid' & Hu')|(id' & Hid' & Hs')]];
    unfold lacks_id in *; congruence.
Qed.

(** Membership in a list that is written out. *)
Ltac list_cases H :=
  simpl in H;
  repeat (apply elem_of_cons in H as [H|H]; [simplify_eq|]);
  try (apply elem_of_nil in H; destruct H).

Lemma users_schema_well_formed : well_formed (Some users_schema).
Proof.
  exists users_schema. split; [done|]. split; [done|].
  intros name tb Hin. list_cases Hin.
  exists users_table. split; [done|]. split; [done|]. split; [done|]. split.
  - exists id_index. by vm_compute.
  - intros k ix Hin. list_cases Hin.
    + exists id_index. repeat split; try done. eexists; split; [done|]. by left.
    + exists tags_index. repeat split; try done. eexists; split; [done|]. by right.
Qed.

Lemma noid_schema_no_nil : no_nil_entries noid_schema.
Proof.
  intros name tb Hin. list_cases Hin.
  exists noid_table. split; [done|].
  intros k ix Hin. list_cases Hin. done.
Qed.

Lemma noid_schema_defect : id_defect noid_schema.
Proof.
  exists "b", noid_table. split; [|left; reflexivity].
  unfold noid_schema; simpl. left.
Qed.

(** C1, as the claim has it, fails: a schema whose table map holds a nil
    pointer besides a table without ["id"] makes [Validate] panic when the
    walk meets the nil entry first, so no error is returned; when the walk
    meets the table without ["id"] first, the error is returned. *)
Lemma validate_panics_on_nil_entry :
  GoMap.keys_unique (DBSchema.Tables nil_entry_schema)
  ∧ id_defect nil_entry_schema
  ∧ DBSchema.Validate (Some nil_entry_schema) = Panic
  ∧ DBSchema.Validate (Some (DBSchema.mk (rev (DBSchema.Tables nil_entry_schema))))
    = Return (Some (Errorf "table %q: %s"
        [ArgString "b"; ArgError (Errorf "must have id index" [])]))
  ∧ ¬ (∀ s, id_defect s → ∃ e, DBSchema.Validate (Some s) = Return (Some e)).
Proof.
  assert (id_defect nil_entry_schema) as Hdef.
  { exists "b", noid_table. split; [|left; reflexivity].
    unfold nil_entry_schema; simpl. right; left. }
  split; [|split; [done|split; [reflexivity|split; [reflexivity|]]]].
  - unfold GoMap.keys_unique. simpl. apply NoDup_cons. split.
    + intros Hin. apply list_elem_of_singleton in Hin. discriminate.
    + apply NoDup_singleton.
  - intros Hall. destruct (Hall _ Hdef) as [e He]. discriminate He.
Qed.

(** C1 (amended): [Validate] returns nil exactly for the well-formed
    schemas; for a schema with a table that lacks ["id"], whose ["id"] is
    not unique or whose ["id"] indexer is not a [SingleIndexer] it never
    returns nil, and it returns an error whenever no entry of the table
    and index maps is a nil pointer. *)
Theorem validate_id_index (s : option DBSchema.t) :
  (DBSchema.Validate s = Return nil_error ↔ well_formed s)
  ∧ (∀ d, s = Some d → id_defect d → DBSchema.Validate s ≠ Return nil_error)
  ∧ (∀ d, s = Some d → no_nil_entries d → id_defect d →
       ∃ e, DBSchema.Validate s = Return (Some e)).
Proof.
  split; [apply validate_nil_iff|]. split.
  - intros d -> Hdef Hnil. apply validate_nil_iff in Hnil.
    by apply (id_defect_not_well_formed d).
  - intros d -> Hnn Hdef.
    destruct (validate_returns d Hnn) as [[e|] He]; [eauto|].
    apply validate_nil_iff in He. by destruct (id_defect_not_well_formed d).
Qed.

Lemma validate_id_index_witness :
  DBSchema.Validate (Some users_schema) = Return nil_error
  ∧ ∃ e, DBSchema.Validate (Some noid_schema) = Return (Some e).
Proof.
  split.
  - apply (proj1 (validate_id_index (Some users_schema))).
    exact users_schema_well_formed.
  - apply (proj2 (proj2 (validate_id_index (Some noid_schema))) noid_schema eq_refl).
    + exact noid_schema_no_nil.
    + exact noid_schema_defect.
Defined.

Lemma rangeTables_app (pre l : GoMap.t (option TableSchema.t)) :
  DBSchema.rangeTables pre = Return nil_error →
  DBSchema.rangeTables (pre ++ l)%list = DBSchema.rangeTables l.
Proof.
  induction pre as [|[k tb] pre IH]; simpl; [done|].
  destruct tb as [t|]; [|discriminate].
  destruct (negb (String.eqb k (TableSchema.Name t))); [discriminate|].
  destruct (TableSchema.Validate (Some t)) as [[e|]|]; simpl;
    [discriminate|done|discriminate].
Qed.

Lemma rangeIndexes_app (pre l : GoMap.t (option IndexSchema.t)) :
  TableSchema.rangeIndexes pre = Return nil_error →
  TableSchema.rangeIndexes (pre ++ l)%list = TableSchema.rangeIndexes l.
Proof.
  induction pre as [|[k ix] pre IH]; simpl; [done|].
  destruct ix as [i|]; [|discriminate].
  destruct (negb (String.eqb k (IndexSchema.Name i))); [discriminate|].
  destruct (IndexSchema.Validate (Some i)) as [[e|]|]; simpl;
    [discriminate|done|discriminate].
Qed.

Lemma table_validate_past_id (t : TableSchema.t) (id : IndexSchema.t) :
  TableSchema.Name t ≠ "" →
  GoMap.lookup "id" (TableSchema.Indexes t) = Some (Some id) →
  IndexSchema.Unique id = true →
  assertSingleIndexer (IndexSchema.Indexer id) = true →
  TableSchema.Validate (Some t) = TableSchema.rangeIndexes (TableSchema.Indexes t).
Proof.
  intros Hn Hid Hu Hs. unfold TableSchema.Validate.
  apply eqb_empty_false in Hn. rewrite Hn.
  destruct (TableSchema.Indexes t) as [|e0 l0] eqn:Hix; [discriminate|].
  simpl Nat.eqb. cbv iota. rewrite Hid, Hu, Hs. reflexivity.
Qed.

(** C7: each [Validate] returns the first violation in a fixed order of
    checks.  [DBSchema]: nil schema, then empty table set, then, at the
    first table entry that fails, the key/name mismatch before the
    table's own validation.  [TableSchema]: empty name, then empty index
    set, then missing ["id"], then ["id"] not unique, then ["id"] indexer
    not a [SingleIndexer], then, at the first index entry that fails, the
    key/name mismatch before the index's own validation.  [IndexSchema]:
    empty name, then nil indexer, then an indexer of neither kind.  Each
    error is returned whatever the later checks would find; a table with
    an empty name yields the missing-name error whatever its indexes. *)
Theorem validate_check_order :
  DBSchema.Validate None = Return (Some (Errorf "schema is nil" []))
  ∧ (∀ d, DBSchema.Tables d = [] →
       DBSchema.Validate (Some d)
       = Return (Some (Errorf "schema has no tables defined" [])))
  ∧ (∀ d pre name tb post,
       DBSchema.Tables d = (pre ++ (name, Some tb) :: post)%list →
       DBSchema.rangeTables pre = Return nil_error →
       (name ≠ TableSchema.Name tb →
          DBSchema.Validate (Some d)
          = Return (Some (Errorf "table name mis-match for '%s'" [ArgString name])))
       ∧ (name = TableSchema.Name tb → ∀ e,
          TableSchema.Validate (Some tb) = Return (Some e) →
          DBSchema.Validate (Some d)
          = Return (Some (Errorf "table %q: %s" [ArgString name; ArgError e]))))
  ∧ (∀ t, TableSchema.Name t = "" →
       TableSchema.Validate (Some t)
       = Return (Some (Errorf "missing table name" [])))
  ∧ (∀ t, TableSchema.Name t ≠ "" → TableSchema.Indexes t = [] →
       TableSchema.Validate (Some t)
       = Return (Some (Errorf "missing table indexes for '%s'"
                              [ArgString (TableSchema.Name t)])))
  ∧ (∀ t, TableSchema.Name t ≠ "" → TableSchema.Indexes t ≠ [] →
       GoMap.lookup "id" (TableSchema.Indexes t) = None →
       TableSchema.Validate (Some t)
       = Return (Some (Errorf "must have id index" [])))
  ∧ (∀ t id, TableSchema.Name t ≠ "" →
       GoMap.lookup "id" (TableSchema.Indexes t) = Some (Some id) →
       IndexSchema.Unique id = false →
       TableSchema.Validate (Some t)
       = Return (Some (Errorf "id index must be unique" [])))
  ∧ (∀ t id, TableSchema.Name t ≠ "" →
       GoMap.lookup "id" (TableSchema.Indexes t) = Some (Some id) →
       IndexSchema.Unique id = true →
       assertSingleIndexer (IndexSchema.Indexer id) = false →
       TableSchema.Validate (Some t)
       = Return (Some (Errorf "id index must be a SingleIndexer" [])))
  ∧ (∀ t id pre name ix post, TableSchema.Name t ≠ "" →
       GoMap.lookup "id" (TableSchema.Indexes t) = Some (Some id) →
       IndexSchema.Unique id = true →
       assertSingleIndexer (IndexSchema.Indexer id) = true →
       TableSchema.Indexes t = (pre ++ (name, Some ix) :: post)%list →
       TableSchema.rangeIndexes pre = Return nil_error →
       (name ≠ IndexSchema.Name ix →
          TableSchema.Validate (Some t)
          = Return (Some (Errorf "index name mis-match for '%s'" [ArgString name])))
       ∧ (name = IndexSchema.Name ix → ∀ e,
          IndexSchema.Validate (Some ix) = Return (Some e) →
          TableSchema.Validate (Some t)
          = Return (Some (Errorf "index %q: %s" [ArgString name; ArgError e]))))
  ∧ (∀ i, IndexSchema.Name i = "" →
       IndexSchema.Validate (Some i)
       = Return (Some (Errorf "missing index name" [])))
  ∧ (∀ i, IndexSchema.Name i ≠ "" → IndexSchema.Indexer i = None →
       IndexSchema.Validate (Some i)
       = Return (Some (Errorf "missing index function for '%s'"
                              [ArgString (IndexSchema.Name i)])))
  ∧ (∀ i v, IndexSchema.Name i ≠ "" → IndexSchema.Indexer i = Some v →
       implSingleIndexer v = false → implMultiIndexer v = false →
       IndexSchema.Validate (Some i)
       = Return (Some (Errorf
           "indexer for '%s' must be a SingleIndexer or MultiIndexer"
           [ArgString (IndexSchema.Name i)]))).
Proof.
  split; [reflexivity|].
  split. { intros d Ht. unfold DBSchema.Validate. rewrite Ht. reflexivity. }
  split.
  { intros d pre name tb post Ht Hpre.
    assert (DBSchema.Validate (Some d)
            = DBSchema.rangeTables ((name, Some tb) :: post)) as ->.
    { unfold DBSchema.Validate. rewrite Ht, rangeTables_app by done.
      destruct pre; reflexivity. }
    simpl. split.
    - intros Hne. apply String.eqb_neq in Hne. rewrite Hne. reflexivity.
    - intros Heq e He. apply String.eqb_eq in Heq. rewrite Heq, He. reflexivity. }
  split. { intros t Hn. unfold TableSchema.Validate. rewrite Hn. reflexivity. }
  split.
  { intros t Hn Hix. unfold TableSchema.Validate.
    apply eqb_empty_false in Hn. rewrite Hn, Hix. reflexivity. }
  split.
  { intros t Hn Hix Hid. unfold TableSchema.Validate.
    apply eqb_empty_false in Hn. rewrite Hn, Hid.
    destruct (TableSchema.Indexes t); [done|reflexivity]. }
  split.
  { intros t id Hn Hid Hu. unfold TableSchema.Validate.
    apply eqb_empty_false in Hn. rewrite Hn, Hid, Hu.
    destruct (TableSchema.Indexes t); [discriminate|reflexivity]. }
  split.
  { intros t id Hn Hid Hu Hs. unfold TableSchema.Validate.
    apply eqb_empty_false in Hn. rewrite Hn, Hid, Hu, Hs.
    destruct (TableSchema.Indexes t); [discriminate|reflexivity]. }
  split.
  { intros t id pre name ix post Hn Hid Hu Hs Hix Hpre.
    rewrite (table_validate_past_id t id) by done.
    rewrite Hix, rangeIndexes_app by done. simpl. split.
    - intros Hne. apply String.eqb_neq in Hne. rewrite Hne. reflexivity.
    - intros Heq e He. apply String.eqb_eq in Heq. rewrite Heq, He. reflexivity. }
  split. { intros i Hn. unfold IndexSchema.Validate. rewrite Hn. reflexivity. }
  split.
  { intros i Hn Hix. unfold IndexSchema.Validate.
    apply eqb_empty_false in Hn. rewrite Hn, Hix. reflexivity. }
  intros i v Hn Hix Hs Hm. unfold IndexSchema.Validate.
  apply eqb_empty_false in Hn. rewrite Hn, Hix, Hs, Hm. reflexivity.
Qed.

Lemma validate_check_order_witness :
  TableSchema.Validate
    (Some (TableSchema.mk "" [("tags", Some (IndexSchema.mk "" false false None))]))
  = Return (Some (Errorf "missing table name" []))
  ∧ DBSchema.Validate
      (Some (DBSchema.mk [("users", Some users_table); ("b", Some noid_table)]))
    = Return (Some (Errorf "table %q: %s"
        [ArgString "b"; ArgError (Errorf "must have id index" [])]))
  ∧ IndexSchema.Validate (Some (IndexSchema.mk "age" false false other_indexer))
    = Return (Some (Errorf
        "indexer for '%s' must be a SingleIndexer or MultiIndexer"
        [ArgString "age"])).
Proof.
  destruct validate_check_order
    as (_ & _ & Hdb & Htab & _ & _ & _ & _ & _ & _ & _ & Hix).
  split; [|split].
  - apply Htab. reflexivity.
  - apply (Hdb (DBSchema.mk [("users", Some users_table); ("b", Some noid_table)])
               [("users", Some users_table)] "b" noid_table []);
      reflexivity.
  - apply (Hix (IndexSchema.mk "age" false false other_indexer)
               {| implSingleIndexer := false; implMultiIndexer := false |});
      [discriminate|reflexivity..].
Defined.

(* ===================================================================== *)
(** ** The database root *)
(* ===================================================================== *)

Lemma elem_of_index_paths (tName : string) (l : GoMap.t (option IndexSchema.t))
    (k : string) :
  k ∈ index_paths tName l ↔ ∃ iName ix, (iName, ix) ∈ l ∧ k = indexPath tName iName.
Proof.
  unfold index_paths. rewrite list_elem_of_fmap. split.
  - intros ([iName ix] & -> & Hin). eauto.
  - intros (iName & ix & Hin & ->). by exists (iName, ix).
Qed.

Lemma elem_of_declared_paths (l : GoMap.t (option TableSchema.t)) (k : string) :
  k ∈ declared_paths l
  ↔ ∃ tName ts iName ix,
      (tName, Some ts) ∈ l ∧ (iName, ix) ∈ TableSchema.Indexes ts
      ∧ k = indexPath tName iName.
Proof.
  induction l as [|[tName tb] l IH]; simpl.
  { split; [intros Hin; inversion Hin|].
    intros (? & ? & ? & ? & Hin & _). inversion Hin. }
  destruct tb as [ts|].
  - rewrite elem_of_app, IH, elem_of_index_paths. split.
    + intros [(iName & ix & Hin & ->)|(tName' & ts' & iName & ix & Hin & Hix & ->)].
      * exists tName, ts, iName, ix. split; [left|done].
      * exists tName', ts', iName, ix. split; [by right|done].
    + intros (tName' & ts' & iName & ix & Hin & Hix & ->).
      apply elem_of_cons in Hin as [[= -> ->]|Hin]; [left; eauto|].
      right. by exists tName', ts', iName, ix.
  - rewrite IH. split.
    + intros (tName' & ts' & iName & ix & Hin & Hix & ->).
      exists tName', ts', iName, ix. split; [by right|done].
    + intros (tName' & ts' & iName & ix & Hin & Hix & ->).
      apply elem_of_cons in Hin as [[=]|Hin].
      by exists tName', ts', iName, ix.
Qed.

Section Root.
Context {V : Type}.
Implicit Types (t : gmap string (gmap string V))
  (root : option (gmap string (gmap string V))) (h : MemDB.heap V).

Lemma rangeIndexes_some tName (l : GoMap.t (option IndexSchema.t)) : ∀ t,
  ∃ t', MemDB.rangeIndexes tName l (Some t) = Return (Some t')
        ∧ ∀ k, t' !! k
               = if decide (k ∈ index_paths tName l) then Some ∅ else t !! k.
Proof.
  induction l as [|[iName ix] l IH]; intros t.
  { exists t. split; [done|]. intros k. rewrite decide_False; [done|].
    apply not_elem_of_nil. }
  destruct (IH (<[indexPath tName iName := iradix.New]> t)) as (t' & Hr & Hk).
  exists t'. split; [exact Hr|]. intros k. rewrite Hk.
  change (index_paths tName ((iName, ix) :: l))
    with (indexPath tName iName :: index_paths tName l).
  unfold iradix.New.
  destruct (decide (k = indexPath tName iName)) as [->|Hne].
  - rewrite lookup_insert_eq.
    rewrite (decide_True (P := _ ∈ _ :: _)) by left.
    by destruct (decide _).
  - rewrite lookup_insert_ne by done.
    destruct (decide (k ∈ index_paths tName l)) as [Hin|Hnin].
    + rewrite decide_True; [done|]. by right.
    + rewrite decide_False; [done|].
      intros Hin. apply elem_of_cons in Hin as [?|?]; done.
Qed.

(** Without a tree to insert into, the loop returns only when there is
    nothing to insert. *)
Lemma rangeIndexes_nil_root tName (l : GoMap.t (option IndexSchema.t)) :
  MemDB.rangeIndexes (V:=V) tName l None
  = match l with
    | [] => Return None
    | _ :: _ => Panic
    end.
Proof. destruct l as [|[iName ix] l]; reflexivity. Qed.

Lemma rangeTables_returns_some (l : GoMap.t (option TableSchema.t)) : ∀ t root',
  MemDB.rangeTables l (Some t) = Return root' →
  ∃ t', root' = Some t'
        ∧ ∀ k, t' !! k
               = if decide (k ∈ declared_paths l) then Some ∅ else t !! k.
Proof.
  induction l as [|[tName tb] l IH]; intros t root' Hr; simpl in Hr.
  { injection Hr as <-. exists t. split; [done|]. intros k.
    rewrite decide_False; [done|]. apply not_elem_of_nil. }
  destruct tb as [ts|]; [|discriminate].
  destruct (rangeIndexes_some tName (TableSchema.Indexes ts) t) as (t1 & Hr1 & Hk1).
  rewrite Hr1 in Hr. simpl in Hr.
  destruct (IH t1 root' Hr) as (t' & -> & Hk).
  exists t'. split; [done|]. intros k. rewrite Hk, Hk1. simpl.
  destruct (decide (k ∈ declared_paths l)) as [Hin|Hnin].
  - rewrite decide_True; [done|]. apply elem_of_app. by right.
  - destruct (decide (k ∈ index_paths tName (TableSchema.Indexes ts))) as [Hin'|Hnin'].
    + rewrite decide_True; [done|]. apply elem_of_app. by left.
    + rewrite decide_False; [done|].
      intros Hin. apply elem_of_app in Hin as [?|?]; done.
Qed.

Lemma rangeTables_panics (l : GoMap.t (option TableSchema.t)) : ∀ t,
  MemDB.rangeTables l (Some t) = Panic ↔ ∃ name, (name, None) ∈ l.
Proof.
  induction l as [|[tName tb] l IH]; intros t; simpl.
  { split; [discriminate|]. intros [name Hin]. inversion Hin. }
  destruct tb as [ts|].
  - destruct (rangeIndexes_some tName (TableSchema.Indexes ts) t) as (t1 & -> & _).
    simpl. rewrite IH. split; intros [name Hin]; exists name.
    + by right.
    + apply elem_of_cons in Hin as [[=]|Hin]; done.
  - split; [|done]. intros _. exists tName. left.
Qed.

(** With a nil root the loops return only when no table is nil and no
    table declares an index, and then the root stays nil. *)
Lemma rangeTables_nil_root (l : GoMap.t (option TableSchema.t)) :
  (MemDB.rangeTables (V:=V) l None = Panic
   ↔ (∃ name, (name, None) ∈ l)
     ∨ (∃ name ts, (name, Some ts) ∈ l ∧ TableSchema.Indexes ts ≠ []))
  ∧ (∀ root', MemDB.rangeTables (V:=V) l None = Return root' → root' = None).
Proof.
  induction l as [|[tName tb] l [IHp IHr]]; simpl.
  { split; [|by intros root' [= <-]]. split; [discriminate|].
    intros [[name Hin]|(name & ts & Hin & _)]; inversion Hin. }
  destruct tb as [ts|].
  2:{ split; [|discriminate]. split; [|done]. intros _. left. exists tName. left. }
  rewrite rangeIndexes_nil_root.
  destruct (TableSchema.Indexes ts) as [|e0 l0] eqn:Hix; simpl.
  - split; [|exact IHr]. rewrite IHp. split.
    + intros [[name Hin]|(name & ts' & Hin & Hne)].
      * left. exists name. by right.
      * right. exists name, ts'. split; [by right|done].
    + intros [[name Hin]|(name & ts' & Hin & Hne)].
      * apply elem_of_cons in Hin as [[=]|Hin]. left. eauto.
      * apply elem_of_cons in Hin as [[= -> ->]|Hin]; [congruence|].
        right. eauto.
  - split; [|discriminate]. split; [|done]. intros _. right.
    exists tName, ts. split; [left|]. by rewrite Hix.
Qed.

Lemma rangeTables_root_returns (l : GoMap.t (option TableSchema.t)) t :
  (∀ name tb, (name, tb) ∈ l → tb ≠ None) →
  ∃ t', MemDB.rangeTables l (Some t) = Return (Some t').
Proof.
  intros Hall. destruct (MemDB.rangeTables l (Some t)) as [root'|] eqn:Hr.
  - destruct (rangeTables_returns_some l t root' Hr) as (t' & -> & _). eauto.
  - apply rangeTables_panics in Hr as [name Hin]. by destruct (Hall _ _ Hin).
Qed.

Lemma rangeTables_lookup (l : GoMap.t (option TableSchema.t)) t t' k :
  MemDB.rangeTables l (Some t) = Return (Some t') →
  t' !! k = if decide (k ∈ declared_paths l) then Some ∅ else t !! k.
Proof.
  intros Hr. destruct (rangeTables_returns_some l t _ Hr) as (t'' & [= <-] & Hk).
  apply Hk.
Qed.

(** What [NewMemDB] does, by the outcome of validation. *)
Lemma NewMemDB_unfold (schema : option DBSchema.t) h :
  MemDB.NewMemDB schema h
  = match DBSchema.Validate schema with
    | Panic => Panic
    | Return (Some e) => Return ((None, Some e), h)
    | Return None =>
        match schema with
        | None => Panic
        | Some s =>
            match MemDB.rangeTables (DBSchema.Tables s) (Some iradix.New) with
            | Panic => Panic
            | Return r =>
                Return ((Some (fresh (dom h)), nil_error),
                        <[fresh (dom h) := MemDB.mk schema r true Unlocked]> h)
            end
        end
    end.
Proof.
  unfold MemDB.NewMemDB, MemDB.mbind, MemDB.lift.
  destruct (DBSchema.Validate schema) as [[e|]|]; [done| |done].
  unfold MemDB.alloc, MemDB.initialize, MemDB.getRoot, MemDB.mbind, MemDB.load,
    MemDB.ret, MemDB.panic, MemDB.store_root, MemDB.lift.
  rewrite !lookup_insert_eq. simpl.
  destruct schema as [s|]; [|done].
  destruct (MemDB.rangeTables (DBSchema.Tables s) (Some iradix.New)) as [r|]; [|done].
  rewrite lookup_insert_eq, insert_insert_eq. reflexivity.
Qed.

Lemma well_formed_tables_not_nil (s : DBSchema.t) :
  well_formed (Some s) →
  ∀ name tb, (name, tb) ∈ DBSchema.Tables s → tb ≠ None.
Proof.
  intros (d & [= <-] & _ & Hall) name tb Hin.
  destruct (Hall _ _ Hin) as (t & -> & _). done.
Qed.

(** [NewMemDB] on a schema that validation accepts. *)
Lemma NewMemDB_valid (s : DBSchema.t) h :
  DBSchema.Validate (Some s) = Return nil_error →
  ∃ t, MemDB.rangeTables (V:=V) (DBSchema.Tables s) (Some iradix.New)
       = Return (Some t)
       ∧ MemDB.NewMemDB (Some s) h
         = Return ((Some (fresh (dom h)), nil_error),
                   <[fresh (dom h) := MemDB.mk (Some s) (Some t) true Unlocked]> h).
Proof.
  intros Hv. rewrite NewMemDB_unfold, Hv.
  apply validate_nil_iff in Hv.
  destruct (rangeTables_root_returns (DBSchema.Tables s) iradix.New
              (well_formed_tables_not_nil s Hv)) as [t Hr].
  rewrite Hr. eauto.
Qed.
End Root.

(** C4: [NewMemDB] returns a non-nil database with a nil error exactly
    when [Validate] returns nil, and the pointer it then returns is the
    address of a database that was not allocated before, holds the given
    schema and is primary; when [Validate] returns an error, [NewMemDB]
    returns a nil database with that error and allocates nothing; and an
    error returned by [NewMemDB] always comes with a nil database and an
    untouched heap. *)
Theorem NewMemDB_iff_valid (V : Type) (schema : option DBSchema.t)
    (h : MemDB.heap V) :
  (DBSchema.Validate schema = Return nil_error
   ↔ ∃ l h' db,
       MemDB.NewMemDB schema h = Return ((Some l, nil_error), h')
       ∧ h' !! l = Some db
       ∧ h !! l = None
       ∧ MemDB.schema db = schema
       ∧ MemDB.primary db = true)
  ∧ (∀ e, DBSchema.Validate schema = Return (Some e) →
       MemDB.NewMemDB schema h = Return ((None, Some e), h))
  ∧ (∀ db e h', MemDB.NewMemDB schema h = Return ((db, Some e), h') →
       db = None ∧ h' = h ∧ DBSchema.Validate schema = Return (Some e)).
Proof.
  split; [split|split].
  - intros Hv.
    pose proof (proj1 (validate_nil_iff schema) Hv) as Hwf.
    destruct schema as [s|]; [|by destruct Hwf as (? & [=] & _)].
    destruct (NewMemDB_valid s h Hv) as (t & _ & Hr).
    eexists _, _, _. split; [exact Hr|]. split; [apply lookup_insert_eq|].
    split; [|done]. apply not_elem_of_dom. apply is_fresh.
  - intros (l & h' & db & Hr & _). rewrite NewMemDB_unfold in Hr.
    destruct (DBSchema.Validate schema) as [[e|]|]; [discriminate|done|discriminate].
  - intros e He. rewrite NewMemDB_unfold, He. reflexivity.
  - intros db e h' Hr. rewrite NewMemDB_unfold in Hr.
    destruct (DBSchema.Validate schema) as [[e'|]|]; [|exfalso|discriminate].
    + by injection Hr as <- <- <-.
    + destruct schema as [s|]; [|discriminate].
      destruct (MemDB.rangeTables _ _); discriminate.
Qed.

Lemma NewMemDB_iff_valid_witness :
  (∃ l h' db,
     MemDB.NewMemDB (V:=nat) (Some users_schema) ∅
     = Return ((Some l, nil_error), h')
     ∧ h' !! l = Some db
     ∧ (∅ : gmap positive (MemDB.t nat)) !! l = None
     ∧ MemDB.schema db = Some users_schema
     ∧ MemDB.primary db = true)
  ∧ MemDB.NewMemDB (V:=nat) (Some noid_schema) ∅
    = Return ((None,
               Some (Errorf "table %q: %s"
                       [ArgString "b"; ArgError (Errorf "must have id index" [])])),
              ∅).
Proof.
  split.
  - apply (proj1 (proj1 (NewMemDB_iff_valid nat (Some users_schema) ∅))).
    reflexivity.
  - apply (proj1 (proj2 (NewMemDB_iff_valid nat (Some noid_schema) ∅))).
    reflexivity.
Defined.

(** C5: when [NewMemDB] completes on a valid schema, the root tree of the
    new database holds an empty tree under the key ["T.I"] (the table
    name, a ['.'], the index name) for every table [T] of the schema and
    every index [I] declared for [T], and it holds nothing under any
    other key. *)
Theorem NewMemDB_root_has_index_trees (V : Type) (schema : option DBSchema.t)
    (h : MemDB.heap V) :
  DBSchema.Validate schema = Return nil_error →
  ∃ s l h' db r,
    schema = Some s
    ∧ MemDB.NewMemDB schema h = Return ((Some l, nil_error), h')
    ∧ h' !! l = Some db
    ∧ MemDB.root db = Some r
    ∧ (∀ tName ts iName ix,
         (tName, Some ts) ∈ DBSchema.Tables s →
         (iName, ix) ∈ TableSchema.Indexes ts →
         iradix.Get r (tName ++ "." ++ iName) = (Some iradix.New, true))
    ∧ (∀ k v, r !! k = Some v →
         v = iradix.New
         ∧ ∃ tName ts iName ix,
             (tName, Some ts) ∈ DBSchema.Tables s
             ∧ (iName, ix) ∈ TableSchema.Indexes ts
             ∧ k = tName ++ "." ++ iName).
Proof.
  intros Hv.
  pose proof (proj1 (validate_nil_iff schema) Hv) as Hwf.
  destruct schema as [s|]; [|by destruct Hwf as (? & [=] & _)].
  destruct (NewMemDB_valid (V:=V) s h Hv) as (t & Ht & Hr).
  eexists s, _, _, _, t.
  split; [done|]. split; [exact Hr|]. split; [apply lookup_insert_eq|].
  split; [done|]. split.
  - intros tName ts iName ix Hin Hix. unfold iradix.Get.
    assert (t !! (tName ++ "." ++ iName) = Some ∅) as ->.
    { rewrite (rangeTables_lookup _ _ _ _ Ht). rewrite decide_True; [done|].
      apply elem_of_declared_paths. by exists tName, ts, iName, ix. }
    rewrite bool_decide_eq_true_2 by eauto. reflexivity.
  - intros k v Hk. rewrite (rangeTables_lookup _ _ _ _ Ht) in Hk.
    destruct (decide (k ∈ declared_paths (DBSchema.Tables s))) as [Hin|Hnin].
    + injection Hk as <-. split; [done|].
      by apply elem_of_declared_paths in Hin.
    + unfold iradix.New in Hk. by rewrite lookup_empty in Hk.
Qed.

Lemma NewMemDB_root_witness :
  ∃ l h' db r,
    MemDB.NewMemDB (V:=nat) (Some users_schema) ∅
    = Return ((Some l, nil_error), h')
    ∧ h' !! l = Some db
    ∧ MemDB.root db = Some r
    ∧ iradix.Get r "users.id" = (Some iradix.New, true)
    ∧ iradix.Get r "users.tags" = (Some iradix.New, true)
    ∧ ∀ k v, r !! k = Some v →
        v = iradix.New ∧ (k = "users.id" ∨ k = "users.tags").
Proof.
  destruct (NewMemDB_root_has_index_trees nat (Some users_schema) ∅ eq_refl)
    as (s & l & h' & db & r & Hs & Hr & Hl & Hroot & Hdecl & Honly).
  injection Hs as <-.
  exists l, h', db, r.
  split; [exact Hr|]. split; [exact Hl|]. split; [exact Hroot|]. split; [|split].
  - apply (Hdecl "users" users_table "id" (Some id_index)); simpl; [left|left].
  - apply (Hdecl "users" users_table "tags" (Some tags_index)); simpl;
      [left|right; left].
  - intros k v Hk.
    destruct (Honly k v Hk) as (Hv & tName & ts & iName & ix & Hin & Hix & ->).
    split; [exact Hv|]. list_cases Hin. list_cases Hix; [by left|by right].
Defined.

(** C6: [Snapshot] allocates a new database whose root is the root of the
    receiver at the call, whose schema is the receiver's, and which is
    not primary; the receiver, and every other allocated database, is
    left as it was. *)
Theorem Snapshot_shares_root (V : Type) (h : MemDB.heap V) (l : positive)
    (db : MemDB.t V) :
  h !! l = Some db →
  ∃ l' h' clone,
    MemDB.Snapshot (Some l) h = Return (Some l', h')
    ∧ h' !! l' = Some clone
    ∧ MemDB.root clone = MemDB.root db
    ∧ MemDB.schema clone = MemDB.schema db
    ∧ MemDB.primary clone = false
    ∧ h !! l' = None
    ∧ h' !! l = Some db
    ∧ ∀ p, p ≠ l' → h' !! p = h !! p.
Proof.
  intros Hl.
  assert (h !! fresh (dom h) = None) as Hfresh.
  { apply not_elem_of_dom. apply is_fresh. }
  exists (fresh (dom h)),
    (<[fresh (dom h) := MemDB.mk (MemDB.schema db) (MemDB.root db) false Unlocked]> h),
    (MemDB.mk (MemDB.schema db) (MemDB.root db) false Unlocked).
  split.
  { unfold MemDB.Snapshot, MemDB.getRoot, MemDB.mbind, MemDB.load, MemDB.ret,
      MemDB.alloc. rewrite Hl. simpl. rewrite Hl. reflexivity. }
  split; [by rewrite lookup_insert_eq|].
  split; [done|]. split; [done|]. split; [done|]. split; [done|]. split.
  - rewrite lookup_insert_ne; [done|]. intros Heq. congruence.
  - intros p Hp. by rewrite lookup_insert_ne.
Qed.

Lemma Snapshot_shares_root_witness :
  ∃ l' h' clone,
    MemDB.Snapshot (Some 1%positive) {[1%positive := users_db]} = Return (Some l', h')
    ∧ h' !! l' = Some clone
    ∧ MemDB.root clone = MemDB.root users_db
    ∧ MemDB.schema clone = MemDB.schema users_db
    ∧ MemDB.primary clone = false
    ∧ ({[1%positive := users_db]} : gmap positive (MemDB.t nat)) !! l' = None
    ∧ h' !! 1%positive = Some users_db
    ∧ ∀ p, p ≠ l' → h' !! p = ({[1%positive := users_db]} : gmap positive (MemDB.t nat)) !! p.
Proof.
  apply (Snapshot_shares_root nat {[1%positive := users_db]} 1%positive users_db).
  reflexivity.
Defined.

(* ===================================================================== *)
(** ** Root-tree keys *)
(* ===================================================================== *)

Lemma indexPath_nil (index : string) : indexPath "" index = String "." index.
Proof. reflexivity. Qed.

Lemma indexPath_cons (c : ascii) (table index : string) :
  indexPath (String c table) index = String c (indexPath table index).
Proof. reflexivity. Qed.

Lemma indexPath_has_dot (table index : string) : has_dot (indexPath table index) = true.
Proof.
  induction table as [|c table IH].
  - reflexivity.
  - rewrite indexPath_cons. simpl. rewrite IH. apply orb_true_r.
Qed.

Lemma indexPath_inj_tables (t1 i1 t2 i2 : string) :
  has_dot t1 = false → has_dot t2 = false →
  indexPath t1 i1 = indexPath t2 i2 → t1 = t2 ∧ i1 = i2.
Proof.
  revert t2.
  induction t1 as [|c1 t1 IH]; intros [|c2 t2]; simpl; intros H1 H2;
    rewrite ?indexPath_nil, ?indexPath_cons; intros Heq.
  - by injection Heq as ->.
  - injection Heq as <- _. discriminate H2.
  - injection Heq as -> _. discriminate H1.
  - injection Heq as <- Heq.
    apply orb_false_iff in H1 as [_ H1]. apply orb_false_iff in H2 as [_ H2].
    destruct (IH t2 H1 H2 Heq) as [-> ->]. done.
Qed.

Lemma indexPath_inj_indexes (t1 i1 t2 i2 : string) :
  has_dot i1 = false → has_dot i2 = false →
  indexPath t1 i1 = indexPath t2 i2 → t1 = t2 ∧ i1 = i2.
Proof.
  revert t2.
  induction t1 as [|c1 t1 IH]; intros [|c2 t2] H1 H2;
    rewrite ?indexPath_nil, ?indexPath_cons; intros Heq.
  - by injection Heq as ->.
  - injection Heq as _ ->.
    pose proof (indexPath_has_dot t2 i2) as Hd. congruence.
  - injection Heq as _ <-.
    pose proof (indexPath_has_dot t1 i1) as Hd. congruence.
  - injection Heq as <- Heq.
    destruct (IH t2 H1 H2 Heq) as [-> ->]. done.
Qed.

(** C9, as the claim has it, fails: ["a.b"] with ["c"] and ["a"] with
    ["b.c"] give the same key, and a schema that validation accepts
    declares two such pairs. *)
Lemma indexPath_collides :
  indexPath "a.b" "c" = indexPath "a" "b.c"
  ∧ ("a.b", "c") ≠ ("a", "b.c")
  ∧ DBSchema.Validate (Some dotted_schema) = Return nil_error
  ∧ indexPath "a.b" "id" = indexPath "a" "b.id"
  ∧ ¬ (∀ t1 i1 t2 i2, indexPath t1 i1 = indexPath t2 i2 → t1 = t2 ∧ i1 = i2).
Proof.
  split; [reflexivity|]. split; [discriminate|]. split; [reflexivity|].
  split; [reflexivity|].
  intros Hinj. destruct (Hinj "a.b" "c" "a" "b.c" eq_refl) as [Ht _].
  discriminate Ht.
Qed.

(** C9 (amended): [indexPath] is injective on the pairs whose table names
    hold no ['.'], and on the pairs whose index names hold no ['.']. *)
Theorem indexPath_injective_without_dot (t1 i1 t2 i2 : string) :
  (has_dot t1 = false ∧ has_dot t2 = false)
  ∨ (has_dot i1 = false ∧ has_dot i2 = false) →
  indexPath t1 i1 = indexPath t2 i2 →
  t1 = t2 ∧ i1 = i2.
Proof.
  intros [[H1 H2]|[H1 H2]] Heq.
  - by apply indexPath_inj_tables.
  - by apply indexPath_inj_indexes.
Qed.

Lemma indexPath_injective_witness :
  "users" = "users" ∧ "id" = "id".
Proof.
  apply (indexPath_injective_without_dot "users" "id" "users" "id").
  - left. split; reflexivity.
  - reflexivity.
Defined.

(* ===================================================================== *)
(** ** Filtered iteration *)
(* ===================================================================== *)

Section Filter.
Context {V I : Type} `{ResultIterator.C I V}.
Implicit Types (p : FilterFunc V) (s : I) (f : FilterIterator.t V I).

(** The loop returns the first pulled value that is nil or not
    rejected, once it has fuel for the rejected values before it. *)
Lemma Next_returns_first p k : ∀ s s' s'' vs y fuel,
  ResultIterator.pull k s = (vs, s') →
  Forall (λ v, v ≠ None ∧ p v = true) vs →
  ResultIterator.Next s' = (y, s'') →
  y = None ∨ p y = false →
  k < fuel →
  (FilterIterator.Next fuel (FilterIterator.mk p s)).2
  = Some (y, FilterIterator.mk p s'').
Proof.
  induction k as [|k IH]; intros s s' s'' vs y fuel Hpull Hrej Hnext Hy Hfuel;
    (destruct fuel as [|fuel]; [lia|]); simpl in *.
  - injection Hpull as <- <-. rewrite Hnext.
    destruct y as [x|]; [|done].
    destruct Hy as [?|Hy]; [done|]. by rewrite Hy.
  - destruct (ResultIterator.Next s) as [v s1] eqn:Hs.
    destruct (ResultIterator.pull k s1) as [vs' s2] eqn:Hp.
    injection Hpull as <- <-.
    apply Forall_cons in Hrej as [[Hv Hpv] Hrej].
    destruct v as [x|]; [|done]. rewrite Hpv. simpl.
    assert (k < fuel) as Hlt by lia.
    specialize (IH s1 s2 s'' vs' y fuel Hp Hrej Hnext Hy Hlt).
    destruct (FilterIterator.Next fuel (FilterIterator.mk p s1)) as [calls r].
    exact IH.
Qed.

(** A value the loop returns is the first pulled value that is nil or
    not rejected. *)
Lemma Next_returned_is_first p fuel : ∀ s y f',
  (FilterIterator.Next fuel (FilterIterator.mk p s)).2 = Some (y, f') →
  ∃ k vs s',
    k < fuel
    ∧ ResultIterator.pull k s = (vs, s')
    ∧ Forall (λ v, v ≠ None ∧ p v = true) vs
    ∧ ResultIterator.Next s' = (y, FilterIterator.iter f')
    ∧ (y = None ∨ p y = false)
    ∧ FilterIterator.filter f' = p.
Proof.
  induction fuel as [|fuel IH]; intros s y f' Hr; simpl in Hr; [discriminate|].
  destruct (ResultIterator.Next s) as [v s1] eqn:Hs.
  destruct v as [x|].
  - destruct (p (Some x)) eqn:Hp; simpl in Hr.
    + destruct (FilterIterator.Next fuel (FilterIterator.mk p s1)) as [calls r] eqn:Hn.
      simpl in Hr. subst r.
      destruct (IH s1 y f') as (k & vs & s' & Hk & Hpull & Hrej & Hnext & Hy & Hf).
      { by rewrite Hn. }
      exists (S k), (Some x :: vs), s'. split; [lia|]. split.
      { simpl. by rewrite Hs, Hpull. }
      split; [|done]. apply Forall_cons. done.
    + injection Hr as <- <-. exists 0, [], s. split; [lia|]. split; [done|].
      split; [apply Forall_nil_2|]. split; [done|]. split; [by right|done].
  - simpl in Hr. injection Hr as <- <-. exists 0, [], s. split; [lia|].
    split; [done|]. split; [apply Forall_nil_2|]. split; [done|].
    split; [by left|done].
Qed.


End Filter.

Section FilterList.
Context {V : Type}.
Implicit Types (p : FilterFunc V) (l : list V).

Lemma Next_list p l : ∀ fuel,
  List.length l < fuel →
  (FilterIterator.Next fuel (FilterIterator.mk p l)).2
  = Some match skip_rejected p l with
         | [] => (None, FilterIterator.mk p [])
         | x :: l' => (Some x, FilterIterator.mk p l')
         end.
Proof.
  induction l as [|x l IH]; intros [|fuel] Hlt; simpl in *; try lia; [done|].
  destruct (p (Some x)) eqn:Hp; simpl; [|done].
  specialize (IH fuel ltac:(lia)).
  destruct (FilterIterator.Next fuel (FilterIterator.mk p l)) as [calls r].
  exact IH.
Qed.

Lemma survivors_skip p l :
  survivors p l = match skip_rejected p l with
                  | [] => []
                  | x :: l' => x :: survivors p l'
                  end.
Proof.
  induction l as [|x l IH]; simpl; [done|].
  destruct (p (Some x)); simpl; done.
Qed.

Lemma skip_rejected_length p l x l' :
  skip_rejected p l = x :: l' → List.length l' < List.length l.
Proof.
  induction l as [|y l IH]; simpl; [discriminate|].
  destruct (p (Some y)).
  - intros Hs. specialize (IH Hs). lia.
  - intros [= -> ->]. lia.
Qed.

Lemma drain_exhausted p fuel n :
  0 < fuel →
  drain fuel n (FilterIterator.mk p ([] : list V)) = replicate n None.
Proof.
  intros Hfuel. induction n as [|n IH]; simpl; [done|].
  rewrite (Next_list p []) by (simpl; lia). simpl. by rewrite IH.
Qed.

Lemma drain_list p fuel n : ∀ m l,
  (List.length l ≤ m)%nat → List.length l < fuel →
  drain fuel (List.length (survivors p l) + n) (FilterIterator.mk p l)
  = ((Some <$> survivors p l) ++ replicate n None)%list.
Proof.
  induction m as [|m IH]; intros l Hm Hfuel.
  - destruct l; [|simpl in Hm; lia]. simpl. apply drain_exhausted. lia.
  - rewrite (survivors_skip p l).
    destruct (skip_rejected p l) as [|x l'] eqn:Hskip; simpl.
    + destruct n as [|n]; simpl; [done|].
      rewrite Next_list, Hskip by done. simpl.
      rewrite drain_exhausted by lia. done.
    + rewrite Next_list, Hskip by done. simpl.
      apply skip_rejected_length in Hskip.
      rewrite IH by lia. done.
Qed.
End FilterList.

(** C3: for every wrapped iterator and predicate, [Next] pulls from the
    wrapped iterator, passes over the values the predicate rejects and
    returns the first pulled value that is nil or not rejected, leaving
    the wrapped iterator just after it; whatever it returns is that
    value.  Over an iterator that yields the values of a list, successive
    calls return the values that are not rejected, in the order of the
    list, and nil on every call after them; wrapping [1,2,3,4] with the
    predicate that rejects even numbers gives 1, 3 and then nil. *)
Theorem FilterIterator_Next_filters (V I : Type) `{ResultIterator.C I V}
    (p : FilterFunc V) :
  (∀ k (s s' s'' : I) vs y fuel,
     ResultIterator.pull k s = (vs, s') →
     Forall (λ v, v ≠ None ∧ p v = true) vs →
     ResultIterator.Next s' = (y, s'') →
     y = None ∨ p y = false →
     k < fuel →
     (FilterIterator.Next fuel (FilterIterator.mk p s)).2
     = Some (y, FilterIterator.mk p s''))
  ∧ (∀ fuel (s : I) y f',
       (FilterIterator.Next fuel (FilterIterator.mk p s)).2 = Some (y, f') →
       ∃ k vs s',
         k < fuel
         ∧ ResultIterator.pull k s = (vs, s')
         ∧ Forall (λ v, v ≠ None ∧ p v = true) vs
         ∧ ResultIterator.Next s' = (y, FilterIterator.iter f')
         ∧ (y = None ∨ p y = false)
         ∧ FilterIterator.filter f' = p)
  ∧ (∀ (l : list V) n fuel,
       List.length l < fuel →
       drain fuel (List.length (survivors p l) + n) (FilterIterator.mk p l)
       = ((Some <$> survivors p l) ++ replicate n None)%list)
  ∧ drain 5 4 (FilterIterator.mk reject_even [1; 2; 3; 4]%Z)
    = [Some 1; Some 3; None; None]%Z.
Proof.
  split; [intros k; apply Next_returns_first|].
  split; [intros fuel; apply Next_returned_is_first|].
  split; [|reflexivity].
  intros l n fuel Hfuel. by apply (drain_list p fuel n (List.length l)).
Qed.

Lemma FilterIterator_Next_filters_witness :
  (FilterIterator.Next 3 (FilterIterator.mk reject_even [2; 4; 5; 6]%Z)).2
  = Some (Some 5%Z, FilterIterator.mk reject_even [6]%Z).
Proof.
  apply (proj1 (FilterIterator_Next_filters Z (list Z) reject_even)
           2 [2; 4; 5; 6]%Z [5; 6]%Z [6]%Z [Some 2; Some 4]%Z (Some 5%Z) 3).
  - reflexivity.
  - repeat constructor; done.
  - reflexivity.
  - right. reflexivity.
  - lia.
Defined.



(* ===================================================================== *)
(** ** Further properties of the database root *)
(* ===================================================================== *)

Section RootKeys.
Context {V : Type}.
Implicit Types (t : gmap string (gmap string V))
  (root : option (gmap string (gmap string V))) (h : MemDB.heap V).

Lemma initialize_unfold (l : positive) h (d : MemDB.t V) :
  h !! l = Some d →
  MemDB.initialize (Some l) h
  = match MemDB.schema d with
    | None => Panic
    | Some s =>
        match MemDB.rangeTables (DBSchema.Tables s) (MemDB.root d) with
        | Panic => Panic
        | Return r => Return (nil_error, <[l := MemDB.set_root r d]> h)
        end
    end.
Proof.
  intros Hl.
  unfold MemDB.initialize, MemDB.getRoot, MemDB.mbind, MemDB.load, MemDB.ret,
    MemDB.panic, MemDB.store_root, MemDB.lift.
  rewrite Hl. simpl. rewrite Hl.
  destruct (MemDB.schema d) as [s|]; [|done].
  destruct (MemDB.rangeTables (DBSchema.Tables s) (MemDB.root d)) as [r|]; [|done].
  rewrite Hl. reflexivity.
Qed.

(** The loops, run again on the root they returned, return it again. *)
Lemma rangeTables_idem (l : GoMap.t (option TableSchema.t)) root root' :
  MemDB.rangeTables l root = Return root' →
  MemDB.rangeTables l root' = Return root'.
Proof.
  intros Hr. destruct root as [t|].
  - destruct (rangeTables_returns_some l t root' Hr) as (t' & -> & Hk).
    destruct (MemDB.rangeTables l (Some t')) as [root2|] eqn:Hr2.
    + destruct (rangeTables_returns_some l t' root2 Hr2) as (t2 & -> & Hk2).
      do 2 f_equal. apply map_eq. intros k. rewrite Hk2, Hk.
      by destruct (decide _).
    + apply rangeTables_panics in Hr2.
      apply (rangeTables_panics l t) in Hr2. congruence.
  - rewrite (proj2 (rangeTables_nil_root l) root' Hr). 
    by rewrite (proj2 (rangeTables_nil_root l) root' Hr) in Hr.
Qed.
End RootKeys.

(** X1: on an allocated database whose schema is not nil and has no nil
    table and whose root is not nil, [initialize] returns a nil error and
    changes nothing but the root of that database: the new root holds an
    empty tree under the key ["T.I"] of every declared index, whatever
    the old root held there, and what the old root held under every
    other key. *)
Theorem initialize_resets_declared (V : Type) (h : MemDB.heap V) (l : positive)
    (d : MemDB.t V) (s : DBSchema.t) (t : gmap string (gmap string V)) :
  h !! l = Some d →
  MemDB.schema d = Some s →
  MemDB.root d = Some t →
  (∀ name tb, (name, tb) ∈ DBSchema.Tables s → tb ≠ None) →
  ∃ r,
    MemDB.initialize (Some l) h
    = Return (nil_error,
              <[l := MemDB.mk (MemDB.schema d) (Some r) (MemDB.primary d)
                              (MemDB.writer d)]> h)
    ∧ (∀ tName ts iName ix,
         (tName, Some ts) ∈ DBSchema.Tables s →
         (iName, ix) ∈ TableSchema.Indexes ts →
         r !! (tName ++ "." ++ iName) = Some ∅)
    ∧ (∀ k,
         (∀ tName ts iName ix,
            (tName, Some ts) ∈ DBSchema.Tables s →
            (iName, ix) ∈ TableSchema.Indexes ts →
            k ≠ tName ++ "." ++ iName) →
         r !! k = t !! k).
Proof.
  intros Hl Hs Ht Hnn. rewrite (initialize_unfold l h d Hl), Hs, Ht.
  destruct (rangeTables_root_returns (DBSchema.Tables s) t Hnn) as [r Hr].
  rewrite Hr. exists r. split.
  { unfold MemDB.set_root. rewrite Hs. reflexivity. }
  split.
  - intros tName ts iName ix Hin Hix.
    rewrite (rangeTables_lookup _ _ _ _ Hr). rewrite decide_True; [done|].
    apply elem_of_declared_paths. by exists tName, ts, iName, ix.
  - intros k Hk. rewrite (rangeTables_lookup _ _ _ _ Hr).
    rewrite decide_False; [done|]. intros Hin.
    apply elem_of_declared_paths in Hin
      as (tName & ts & iName & ix & Hin & Hix & ->).
    by apply (Hk tName ts iName ix).
Qed.

Lemma initialize_resets_declared_witness :
  ∃ r,
    MemDB.initialize (Some 1%positive) {[1%positive := stale_db]}
    = Return (nil_error,
              <[1%positive := MemDB.mk (Some users_schema) (Some r) true Locked]>
                {[1%positive := stale_db]})
    ∧ r !! "users.id" = Some ∅
    ∧ r !! "users.tags" = Some ∅
    ∧ r !! "spare" = Some {["k" := 8]}.
Proof.
  destruct (initialize_resets_declared nat {[1%positive := stale_db]} 1%positive
              stale_db users_schema
              (<["users.id" := {["k" := 7]}]> {["spare" := {["k" := 8]}]}))
    as (r & Hr & Hdecl & Hother); [reflexivity..| |].
  { intros name tb Hin. list_cases Hin. done. }
  exists r. split; [exact Hr|]. split; [|split].
  - apply (Hdecl "users" users_table "id" (Some id_index)); simpl; [left|left].
  - apply (Hdecl "users" users_table "tags" (Some tags_index)); simpl;
      [left|right; left].
  - rewrite (Hother "spare"); [reflexivity|].
    intros tName ts iName ix Hin Hix. list_cases Hin. list_cases Hix; discriminate.
Defined.

(** X2: [initialize] never returns an error.  On a nil receiver it
    panics; on an allocated database it panics exactly when the schema is
    nil, or the table map holds a nil table, or the root is nil and some
    table declares an index (the insertion into the nil tree panics). *)
Theorem initialize_panics_iff (V : Type) (h : MemDB.heap V) :
  MemDB.initialize None h = Panic
  ∧ (∀ p e h', MemDB.initialize p h = Return (e, h') → e = nil_error)
  ∧ (∀ l d, h !! l = Some d →
       (MemDB.initialize (Some l) h = Panic
        ↔ MemDB.schema d = None
          ∨ ∃ s, MemDB.schema d = Some s
                 ∧ ((∃ name, (name, None) ∈ DBSchema.Tables s)
                    ∨ (MemDB.root d = None
                       ∧ ∃ name ts, (name, Some ts) ∈ DBSchema.Tables s
                                    ∧ TableSchema.Indexes ts ≠ [])))).
Proof.
  split; [reflexivity|]. split.
  - intros [l|] e h' Hr; [|discriminate].
    destruct (h !! l) as [d|] eqn:Hl.
    + rewrite (initialize_unfold l h d Hl) in Hr.
      destruct (MemDB.schema d) as [s|]; [|discriminate].
      destruct (MemDB.rangeTables _ _); [|discriminate]. by injection Hr as <- _.
    + unfold MemDB.initialize, MemDB.getRoot, MemDB.mbind, MemDB.load in Hr.
      rewrite Hl in Hr. discriminate.
  - intros l d Hl. rewrite (initialize_unfold l h d Hl).
    destruct (MemDB.schema d) as [s|]; [|split; [by left|done]].
    assert (MemDB.rangeTables (DBSchema.Tables s) (MemDB.root d) = Panic
            ↔ (∃ name, (name, None) ∈ DBSchema.Tables s)
              ∨ (MemDB.root d = None
                 ∧ ∃ name ts, (name, Some ts) ∈ DBSchema.Tables s
                              ∧ TableSchema.Indexes ts ≠ [])) as Hiff.
    { destruct (MemDB.root d) as [t|].
      - rewrite rangeTables_panics. split; [by left|].
        intros [?|[[=] _]]. done.
      - rewrite (proj1 (rangeTables_nil_root (V:=V) (DBSchema.Tables s))).
        split; (intros [?|?]; [by left|right]); [done|tauto]. }
    destruct (MemDB.rangeTables (DBSchema.Tables s) (MemDB.root d)) as [r|].
    + split; [discriminate|]. intros [[=]|(s' & [= <-] & Hwhy)].
      by apply Hiff in Hwhy.
    + split; [|done]. intros _. right. exists s. split; [done|]. by apply Hiff.
Qed.

Lemma initialize_panics_iff_witness :
  MemDB.initialize (Some 1%positive) {[1%positive := zero_root_db]} = Panic.
Proof.
  apply (proj2 (proj2 (initialize_panics_iff nat {[1%positive := zero_root_db]}))
           1%positive zero_root_db).
  - reflexivity.
  - right. exists users_schema. split; [reflexivity|]. right. split; [reflexivity|].
    exists "users", users_table. split; [|discriminate].
    unfold users_schema; simpl. left.
Defined.

(** X3: a second [initialize] changes nothing: run on the heap that a
    first [initialize] left, it returns the same result and leaves that
    heap as it is. *)
Theorem initialize_idempotent (V : Type) (h h1 : MemDB.heap V) (p : MemDB.ptr)
    (e : error) :
  MemDB.initialize p h = Return (e, h1) →
  MemDB.initialize p h1 = Return (e, h1).
Proof.
  intros Hr. destruct p as [l|]; [|discriminate].
  destruct (h !! l) as [d|] eqn:Hl.
  2:{ unfold MemDB.initialize, MemDB.getRoot, MemDB.mbind, MemDB.load in Hr.
      rewrite Hl in Hr. discriminate. }
  rewrite (initialize_unfold l h d Hl) in Hr.
  destruct (MemDB.schema d) as [s|] eqn:Hs; [|discriminate].
  destruct (MemDB.rangeTables (DBSchema.Tables s) (MemDB.root d)) as [r|] eqn:Hrt;
    [|discriminate].
  injection Hr as <- <-.
  rewrite (initialize_unfold l _ (MemDB.set_root r d)) by apply lookup_insert_eq.
  simpl. rewrite Hs, (rangeTables_idem _ _ _ Hrt).
  rewrite insert_insert_eq. reflexivity.
Qed.

Lemma initialize_idempotent_witness :
  MemDB.initialize (Some 1%positive)
    (<[1%positive := MemDB.mk (Some users_schema)
         (Some (<["users.tags" := ∅]>
                  (<["users.id" := ∅]> {["spare" := {["k" := 8]}]})))
         true Locked]> {[1%positive := stale_db]})
  = Return (nil_error,
      <[1%positive := MemDB.mk (Some users_schema)
         (Some (<["users.tags" := ∅]>
                  (<["users.id" := ∅]> {["spare" := {["k" := 8]}]})))
         true Locked]> {[1%positive := stale_db]}).
Proof.
  apply (initialize_idempotent nat {[1%positive := stale_db]}).
  unfold MemDB.initialize, MemDB.getRoot, MemDB.mbind, MemDB.load, MemDB.ret,
    MemDB.store_root, MemDB.lift.
  rewrite lookup_singleton_eq. simpl. rewrite lookup_singleton_eq. simpl.
  rewrite lookup_singleton_eq. unfold MemDB.set_root, iradix.New, indexPath. simpl.
  rewrite insert_insert_eq. reflexivity.
Defined.

(** X4: a database that [NewMemDB] returns sits at an address that was
    not in use, is primary, holds the schema it was given, a root that is
    not nil and an unlocked writer mutex; every database allocated before
    is left as it was. *)
Theorem NewMemDB_allocates_one (V : Type) (schema : option DBSchema.t)
    (h h' : MemDB.heap V) (p : positive) (e : error) :
  MemDB.NewMemDB schema h = Return ((Some p, e), h') →
  e = nil_error
  ∧ h !! p = None
  ∧ (∀ q, q ≠ p → h' !! q = h !! q)
  ∧ ∃ r, h' !! p = Some (MemDB.mk schema (Some r) true Unlocked).
Proof.
  rewrite NewMemDB_unfold. intros Hr.
  destruct (DBSchema.Validate schema) as [[e'|]|]; [discriminate| |discriminate].
  destruct schema as [s|]; [|discriminate].
  destruct (MemDB.rangeTables (DBSchema.Tables s) (Some iradix.New)) as [r|] eqn:Hrt;
    [|discriminate].
  destruct (rangeTables_returns_some _ _ _ Hrt) as (t & -> & _).
  injection Hr as <- <- <-. split; [done|]. split.
  { apply not_elem_of_dom. apply is_fresh. }
  split.
  - intros q Hq. by rewrite lookup_insert_ne.
  - exists t. by rewrite lookup_insert_eq.
Qed.

Lemma NewMemDB_allocates_one_witness :
  ∃ p h',
    MemDB.NewMemDB (V:=nat) (Some users_schema) ∅ = Return ((Some p, nil_error), h')
    ∧ (∅ : gmap positive (MemDB.t nat)) !! p = None
    ∧ (∀ q, q ≠ p → h' !! q = (∅ : gmap positive (MemDB.t nat)) !! q)
    ∧ ∃ r, h' !! p = Some (MemDB.mk (Some users_schema) (Some r) true Unlocked).
Proof.
  eexists _, _. split; [rewrite NewMemDB_unfold; reflexivity|].
  eapply (NewMemDB_allocates_one nat (Some users_schema) ∅ _ _ nil_error).
  rewrite NewMemDB_unfold. reflexivity.
Defined.

(* ===================================================================== *)
(** ** Independence of the order of the maps *)
(* ===================================================================== *)

Lemma elem_of_lookup {A : Type} (k : string) (v : A) (m : GoMap.t A) :
  GoMap.keys_unique m → (k, v) ∈ m → GoMap.lookup k m = Some v.
Proof.
  unfold GoMap.keys_unique.
  induction m as [|[k' v'] m IH]; simpl; intros Hnd Hin; [inversion Hin|].
  apply NoDup_cons in Hnd as [Hk' Hnd].
  apply elem_of_cons in Hin as [[= <- <-]|Hin].
  - by rewrite String.eqb_refl.
  - destruct (String.eqb_spec k k') as [->|Hne]; [|by apply IH].
    destruct Hk'. apply list_elem_of_fmap. by exists (k', v).
Qed.

Lemma same_tables_sym (l l' : GoMap.t (option TableSchema.t)) :
  same_tables l l' → same_tables l' l.
Proof.
  assert (∀ tb tb', same_table_ptr tb tb' → same_table_ptr tb' tb) as Hsym.
  { intros [t|] [t'|]; simpl; try done. intros [Hn He]. split; [done|].
    intros e. by rewrite He. }
  intros [H1 H2]. split.
  - intros k tb Hin. destruct (H2 k tb Hin) as (tb' & ? & ?). eauto.
  - intros k tb Hin. destruct (H1 k tb Hin) as (tb' & ? & ?). eauto.
Qed.

Lemma same_tables_declared (l l' : GoMap.t (option TableSchema.t)) (k : string) :
  same_tables l l' → k ∈ declared_paths l → k ∈ declared_paths l'.
Proof.
  intros [H1 _]. rewrite !elem_of_declared_paths.
  intros (tName & ts & iName & ix & Hin & Hix & ->).
  destruct (H1 _ _ Hin) as ([ts'|] & Hin' & Hsame); [|done].
  destruct Hsame as [_ He]. exists tName, ts', iName, ix.
  split; [done|]. split; [by apply He|done].
Qed.

Lemma same_tables_well_formed (s s' : DBSchema.t) :
  same_tables (DBSchema.Tables s) (DBSchema.Tables s') →
  index_keys_unique (DBSchema.Tables s') →
  well_formed (Some s) → well_formed (Some s').
Proof.
  intros [H1 H2] Hu (d & [= <-] & Hne & Hall).
  exists s'. split; [done|]. split.
  - destruct (DBSchema.Tables s) as [|[k tb] l] eqn:Ht; [done|].
    destruct (H1 k tb) as (tb' & Hin & _); [left|].
    intros Hnil. rewrite Hnil in Hin. inversion Hin.
  - intros name tb' Hin'.
    destruct (H2 _ _ Hin') as (tb & Hin & Hsame).
    destruct (Hall _ _ Hin) as (t & -> & Hn & Hne' & (id & Hid & Hu' & Hs') & Hix).
    destruct tb' as [t'|]; [|done]. destruct Hsame as [Hname He].
    exists t'. split; [done|]. split; [congruence|]. split; [done|]. split.
    + exists id. split; [|done].
      apply elem_of_lookup; [by eapply Hu|]. apply He. by apply lookup_elem_of.
    + intros k ix Hk. apply Hix. by apply He.
Qed.

(** X5: whether [DBSchema.Validate] accepts a schema does not depend on
    the order in which the table map and the index maps are ranged over:
    two listings of the same maps are both accepted or both not.  Which
    error a rejected schema gets does depend on it: a schema with two
    faulty tables gets the error of the one visited first. *)
Theorem validate_accepts_in_any_order :
  (∀ s s',
     same_tables (DBSchema.Tables s) (DBSchema.Tables s') →
     index_keys_unique (DBSchema.Tables s) →
     index_keys_unique (DBSchema.Tables s') →
     (DBSchema.Validate (Some s) = Return nil_error
      ↔ DBSchema.Validate (Some s') = Return nil_error))
  ∧ DBSchema.Validate
      (Some (DBSchema.mk [("", Some unnamed_table); ("bare", Some bare_table)]))
    = Return (Some (Errorf "table %q: %s"
        [ArgString ""; ArgError (Errorf "missing table name" [])]))
  ∧ DBSchema.Validate
      (Some (DBSchema.mk [("bare", Some bare_table); ("", Some unnamed_table)]))
    = Return (Some (Errorf "table %q: %s"
        [ArgString "bare";
         ArgError (Errorf "missing table indexes for '%s'" [ArgString "bare"])])).
Proof.
  split; [|split; reflexivity].
  intros s s' Hsame Hu Hu'. rewrite !validate_nil_iff. split.
  - by apply same_tables_well_formed.
  - apply same_tables_well_formed; [by apply same_tables_sym|done].
Qed.

Lemma users_schema_swapped_same :
  same_tables (DBSchema.Tables users_schema) (DBSchema.Tables users_schema_swapped).
Proof.
  split; intros k tb Hin; list_cases Hin; eexists; (split; [left|]);
    (split; [done|]); intros e; simpl; rewrite !elem_of_cons; tauto.
Qed.

Lemma users_schema_keys_unique :
  index_keys_unique (DBSchema.Tables users_schema)
  ∧ index_keys_unique (DBSchema.Tables users_schema_swapped).
Proof.
  split; intros k t Hin; list_cases Hin; unfold GoMap.keys_unique; simpl;
    (apply NoDup_cons; split; [|apply NoDup_singleton]);
    intros Hin; apply list_elem_of_singleton in Hin; discriminate.
Qed.

Lemma validate_accepts_in_any_order_witness :
  DBSchema.Validate (Some users_schema) = Return nil_error
  ↔ DBSchema.Validate (Some users_schema_swapped) = Return nil_error.
Proof.
  apply (proj1 validate_accepts_in_any_order).
  - exact users_schema_swapped_same.
  - exact (proj1 users_schema_keys_unique).
  - exact (proj2 users_schema_keys_unique).
Defined.

(** X6: the root that [NewMemDB] builds does not depend on the order in
    which the table map and the index maps are ranged over: on two
    listings of the same maps that validation accepts, it returns
    databases at the same address with the same root. *)
Theorem NewMemDB_root_in_any_order (V : Type) (h : MemDB.heap V)
    (s s' : DBSchema.t) :
  same_tables (DBSchema.Tables s) (DBSchema.Tables s') →
  DBSchema.Validate (Some s) = Return nil_error →
  DBSchema.Validate (Some s') = Return nil_error →
  ∃ l r,
    MemDB.NewMemDB (Some s) h
    = Return ((Some l, nil_error),
              <[l := MemDB.mk (Some s) (Some r) true Unlocked]> h)
    ∧ MemDB.NewMemDB (Some s') h
      = Return ((Some l, nil_error),
                <[l := MemDB.mk (Some s') (Some r) true Unlocked]> h).
Proof.
  intros Hsame Hv Hv'.
  destruct (NewMemDB_valid (V:=V) s h Hv) as (r & Hr & ->).
  destruct (NewMemDB_valid (V:=V) s' h Hv') as (r' & Hr' & ->).
  exists (fresh (dom h)), r. split; [done|].
  assert (r' = r) as ->; [|done].
  apply map_eq. intros k.
  rewrite (rangeTables_lookup _ _ _ k Hr), (rangeTables_lookup _ _ _ k Hr').
  destruct (decide (k ∈ declared_paths (DBSchema.Tables s))) as [Hin|Hnin].
  - rewrite decide_True; [done|]. by eapply same_tables_declared.
  - rewrite decide_False; [done|]. intros Hin'. apply Hnin.
    eapply same_tables_declared; [|done]. by apply same_tables_sym.
Qed.

Lemma NewMemDB_root_in_any_order_witness :
  ∃ l r,
    MemDB.NewMemDB (V:=nat) (Some users_schema) ∅
    = Return ((Some l, nil_error),
              <[l := MemDB.mk (Some users_schema) (Some r) true Unlocked]> ∅)
    ∧ MemDB.NewMemDB (V:=nat) (Some users_schema_swapped) ∅
      = Return ((Some l, nil_error),
                <[l := MemDB.mk (Some users_schema_swapped) (Some r) true Unlocked]> ∅).
Proof.
  apply (NewMemDB_root_in_any_order nat ∅ users_schema users_schema_swapped).
  - exact users_schema_swapped_same.
  - reflexivity.
  - reflexivity.
Defined.

(* ===================================================================== *)
(** ** What an error of validation reports, and when validation panics *)
(* ===================================================================== *)

Lemma rangeTables_error (l : GoMap.t (option TableSchema.t)) (e : err) :
  DBSchema.rangeTables l = Return (Some e) →
  ∃ name tb,
    (name, Some tb) ∈ l
    ∧ ((name ≠ TableSchema.Name tb
        ∧ e = Errorf "table name mis-match for '%s'" [ArgString name])
       ∨ (name = TableSchema.Name tb
          ∧ ∃ e', TableSchema.Validate (Some tb) = Return (Some e')
                  ∧ e = Errorf "table %q: %s" [ArgString name; ArgError e'])).
Proof.
  induction l as [|[k tb] l IH]; simpl; [discriminate|].
  destruct tb as [t|]; [|discriminate].
  destruct (String.eqb_spec k (TableSchema.Name t)) as [Hk|Hk]; simpl.
  - destruct (TableSchema.Validate (Some t)) as [[e'|]|] eqn:Hv; simpl.
    + intros [= <-]. exists k, t. split; [left|]. right. eauto.
    + intros Hr. destruct (IH Hr) as (name & tb & Hin & Hwhat).
      exists name, tb. split; [by right|done].
    + discriminate.
  - intros [= <-]. exists k, t. split; [left|]. by left.
Qed.

Lemma rangeIndexes_error (l : GoMap.t (option IndexSchema.t)) (e : err) :
  TableSchema.rangeIndexes l = Return (Some e) →
  ∃ name ix,
    (name, Some ix) ∈ l
    ∧ ((name ≠ IndexSchema.Name ix
        ∧ e = Errorf "index name mis-match for '%s'" [ArgString name])
       ∨ (name = IndexSchema.Name ix
          ∧ ∃ e', IndexSchema.Validate (Some ix) = Return (Some e')
                  ∧ e = Errorf "index %q: %s" [ArgString name; ArgError e'])).
Proof.
  induction l as [|[k ix] l IH]; simpl; [discriminate|].
  destruct ix as [i|]; [|discriminate].
  destruct (String.eqb_spec k (IndexSchema.Name i)) as [Hk|Hk]; simpl.
  - destruct (IndexSchema.Validate (Some i)) as [[e'|]|] eqn:Hv; simpl.
    + intros [= <-]. exists k, i. split; [left|]. right. eauto.
    + intros Hr. destruct (IH Hr) as (name & ix & Hin & Hwhat).
      exists name, ix. split; [by right|done].
    + discriminate.
  - intros [= <-]. exists k, i. split; [left|]. by left.
Qed.

(** X7: an error that [DBSchema.Validate] returns reports a fault that is
    there: the schema is nil, or its table map is empty, or the error
    names an entry of the table map whose key differs from the table's
    name, or it names an entry whose key is the table's name and wraps
    the very error [TableSchema.Validate] returns on that table. *)
Theorem validate_error_is_real (s : option DBSchema.t) (e : err) :
  DBSchema.Validate s = Return (Some e) →
  (s = None ∧ e = Errorf "schema is nil" [])
  ∨ (∃ d, s = Some d ∧ DBSchema.Tables d = []
          ∧ e = Errorf "schema has no tables defined" [])
  ∨ (∃ d name tb, s = Some d ∧ (name, Some tb) ∈ DBSchema.Tables d
          ∧ name ≠ TableSchema.Name tb
          ∧ e = Errorf "table name mis-match for '%s'" [ArgString name])
  ∨ (∃ d name tb e', s = Some d ∧ (name, Some tb) ∈ DBSchema.Tables d
          ∧ name = TableSchema.Name tb
          ∧ TableSchema.Validate (Some tb) = Return (Some e')
          ∧ e = Errorf "table %q: %s" [ArgString name; ArgError e']).
Proof.
  unfold DBSchema.Validate. destruct s as [d|].
  2:{ intros [= <-]. by left. }
  destruct (DBSchema.Tables d) as [|e0 l0] eqn:Ht.
  { intros [= <-]. right; left. eauto. }
  rewrite <- Ht. destruct (DBSchema.Tables d) as [|e1 l1] eqn:Ht'; [discriminate|].
  simpl Nat.eqb. cbv iota. rewrite <- Ht'. intros Hr.
  destruct (rangeTables_error _ _ Hr) as (name & tb & Hin & [[Hne ->]|(Heq & e' & He' & ->)]).
  - right; right; left. by exists d, name, tb.
  - right; right; right. by exists d, name, tb, e'.
Qed.

Lemma validate_error_is_real_witness :
  (Some noid_schema = None ∧ Errorf "table %q: %s"
     [ArgString "b"; ArgError (Errorf "must have id index" [])]
     = Errorf "schema is nil" [])
  ∨ (∃ d, Some noid_schema = Some d ∧ DBSchema.Tables d = []
          ∧ Errorf "table %q: %s"
              [ArgString "b"; ArgError (Errorf "must have id index" [])]
            = Errorf "schema has no tables defined" [])
  ∨ (∃ d name tb, Some noid_schema = Some d ∧ (name, Some tb) ∈ DBSchema.Tables d
          ∧ name ≠ TableSchema.Name tb
          ∧ Errorf "table %q: %s"
              [ArgString "b"; ArgError (Errorf "must have id index" [])]
            = Errorf "table name mis-match for '%s'" [ArgString name])
  ∨ (∃ d name tb e', Some noid_schema = Some d ∧ (name, Some tb) ∈ DBSchema.Tables d
          ∧ name = TableSchema.Name tb
          ∧ TableSchema.Validate (Some tb) = Return (Some e')
          ∧ Errorf "table %q: %s"
              [ArgString "b"; ArgError (Errorf "must have id index" [])]
            = Errorf "table %q: %s" [ArgString name; ArgError e']).
Proof.
  apply (validate_error_is_real (Some noid_schema)). reflexivity.
Defined.

(** X8: an error that [TableSchema.Validate] returns reports a fault that
    is there: an empty name, an empty index map, no ["id"] entry, an
    ["id"] index that is not unique or whose indexer is not a
    [SingleIndexer], or an entry of the index map whose key differs from
    the index's name or on which [IndexSchema.Validate] returns the
    wrapped error; and an error of [IndexSchema.Validate] reports an
    empty name, a nil indexer or an indexer of neither kind. *)
Theorem table_error_is_real :
  (∀ t e, TableSchema.Validate (Some t) = Return (Some e) →
     (TableSchema.Name t = "" ∧ e = Errorf "missing table name" [])
     ∨ (TableSchema.Indexes t = []
        ∧ e = Errorf "missing table indexes for '%s'" [ArgString (TableSchema.Name t)])
     ∨ (GoMap.lookup "id" (TableSchema.Indexes t) = None
        ∧ e = Errorf "must have id index" [])
     ∨ (∃ id, GoMap.lookup "id" (TableSchema.Indexes t) = Some (Some id)
              ∧ IndexSchema.Unique id = false
              ∧ e = Errorf "id index must be unique" [])
     ∨ (∃ id, GoMap.lookup "id" (TableSchema.Indexes t) = Some (Some id)
              ∧ assertSingleIndexer (IndexSchema.Indexer id) = false
              ∧ e = Errorf "id index must be a SingleIndexer" [])
     ∨ (∃ name ix, (name, Some ix) ∈ TableSchema.Indexes t
              ∧ name ≠ IndexSchema.Name ix
              ∧ e = Errorf "index name mis-match for '%s'" [ArgString name])
     ∨ (∃ name ix e', (name, Some ix) ∈ TableSchema.Indexes t
              ∧ name = IndexSchema.Name ix
              ∧ IndexSchema.Validate (Some ix) = Return (Some e')
              ∧ e = Errorf "index %q: %s" [ArgString name; ArgError e']))
  ∧ (∀ i e, IndexSchema.Validate (Some i) = Return (Some e) →
       (IndexSchema.Name i = "" ∧ e = Errorf "missing index name" [])
       ∨ (IndexSchema.Indexer i = None
          ∧ e = Errorf "missing index function for '%s'"
                  [ArgString (IndexSchema.Name i)])
       ∨ (∃ v, IndexSchema.Indexer i = Some v
               ∧ implSingleIndexer v = false ∧ implMultiIndexer v = false
               ∧ e = Errorf
                   "indexer for '%s' must be a SingleIndexer or MultiIndexer"
                   [ArgString (IndexSchema.Name i)])).
Proof.
  split.
  - intros t e. unfold TableSchema.Validate.
    destruct (String.eqb_spec (TableSchema.Name t) "") as [Hn|Hn].
    { intros [= <-]. by left. }
    destruct (TableSchema.Indexes t) as [|e0 l0] eqn:Hix.
    { intros [= <-]. right; left. done. }
    rewrite <- Hix. destruct (TableSchema.Indexes t) as [|e1 l1] eqn:Hix'; [discriminate|].
    simpl Nat.eqb. cbv iota. rewrite <- Hix'.
    destruct (GoMap.lookup "id" (TableSchema.Indexes t)) as [[id|]|] eqn:Hid.
    + destruct (IndexSchema.Unique id) eqn:Hu; simpl.
      2:{ intros [= <-]. do 3 right; left. eauto. }
      destruct (assertSingleIndexer (IndexSchema.Indexer id)) eqn:Hs; simpl.
      2:{ intros [= <-]. do 4 right; left. eauto. }
      intros Hr.
      destruct (rangeIndexes_error _ _ Hr)
        as (name & ix & Hin & [[Hne ->]|(Heq & e' & He' & ->)]).
      * do 5 right; left. by exists name, ix.
      * do 6 right. by exists name, ix, e'.
    + discriminate.
    + intros [= <-]. do 2 right; left. done.
  - intros i e. unfold IndexSchema.Validate.
    destruct (String.eqb_spec (IndexSchema.Name i) "") as [Hn|Hn].
    { intros [= <-]. by left. }
    destruct (IndexSchema.Indexer i) as [v|].
    2:{ intros [= <-]. right; left. done. }
    destruct (implSingleIndexer v) eqn:Hs; [discriminate|].
    destruct (implMultiIndexer v) eqn:Hm; [discriminate|].
    intros [= <-]. right; right. by exists v.
Qed.

Lemma rangeIndexes_panics (l : GoMap.t (option IndexSchema.t)) :
  TableSchema.rangeIndexes l = Panic → ∃ k, (k, None) ∈ l.
Proof.
  induction l as [|[k ix] l IH]; simpl; [discriminate|].
  destruct ix as [i|]; [|intros _; exists k; left].
  destruct (negb (String.eqb k (IndexSchema.Name i))); [discriminate|].
  destruct (index_validate_returns i) as [[e|] ->]; simpl; [discriminate|].
  intros Hp. destruct (IH Hp) as [k' Hin]. exists k'. by right.
Qed.

Lemma table_validate_panics (t : TableSchema.t) :
  TableSchema.Validate (Some t) = Panic → ∃ k, (k, None) ∈ TableSchema.Indexes t.
Proof.
  unfold TableSchema.Validate.
  destruct (String.eqb (TableSchema.Name t) ""); [discriminate|].
  destruct (Nat.eqb _ 0); [discriminate|].
  destruct (GoMap.lookup "id" (TableSchema.Indexes t)) as [[id|]|] eqn:Hid;
    [| |discriminate].
  - destruct (negb (IndexSchema.Unique id)); [discriminate|].
    destruct (negb (assertSingleIndexer _)); [discriminate|].
    apply rangeIndexes_panics.
  - intros _. exists "id". by apply lookup_elem_of.
Qed.

(** X9: [DBSchema.Validate] panics only on a nil pointer inside the
    schema: when it panics, the schema is not nil and its table map holds
    a nil table or a table whose index map holds a nil index.  On a
    schema without such an entry, and on the nil schema, it returns. *)
Theorem validate_panics_only_on_nil_entry (s : option DBSchema.t) :
  DBSchema.Validate s = Panic →
  ∃ d, s = Some d
       ∧ ((∃ name, (name, None) ∈ DBSchema.Tables d)
          ∨ (∃ name tb k, (name, Some tb) ∈ DBSchema.Tables d
                          ∧ (k, None) ∈ TableSchema.Indexes tb)).
Proof.
  unfold DBSchema.Validate. destruct s as [d|]; [|discriminate].
  destruct (Nat.eqb _ 0); [discriminate|]. intros Hp. exists d. split; [done|].
  induction (DBSchema.Tables d) as [|[k tb] l IH]; simpl in Hp; [discriminate|].
  destruct tb as [t|]; [|left; exists k; left].
  destruct (negb (String.eqb k (TableSchema.Name t))); [discriminate|].
  destruct (TableSchema.Validate (Some t)) as [[e|]|] eqn:Hv; simpl in Hp;
    [discriminate| |].
  - destruct (IH Hp) as [[name Hin]|(name & tb & k' & Hin & Hk')].
    + left. exists name. by right.
    + right. exists name, tb, k'. split; [by right|done].
  - apply table_validate_panics in Hv as [k' Hk'].
    right. exists k, t, k'. split; [left|done].
Qed.

Lemma validate_panics_only_on_nil_entry_witness :
  ∃ d, Some nil_entry_schema = Some d
       ∧ ((∃ name, (name, None) ∈ DBSchema.Tables d)
          ∨ (∃ name tb k, (name, Some tb) ∈ DBSchema.Tables d
                          ∧ (k, None) ∈ TableSchema.Indexes tb)).
Proof.
  apply (validate_panics_only_on_nil_entry (Some nil_entry_schema)). reflexivity.
Defined.

Lemma table_error_is_real_witness :
  (IndexSchema.Name (IndexSchema.mk "age" false false other_indexer) = ""
   ∧ Errorf "indexer for '%s' must be a SingleIndexer or MultiIndexer"
       [ArgString "age"]
     = Errorf "missing index name" [])
  ∨ (IndexSchema.Indexer (IndexSchema.mk "age" false false other_indexer) = None
     ∧ Errorf "indexer for '%s' must be a SingleIndexer or MultiIndexer"
         [ArgString "age"]
       = Errorf "missing index function for '%s'"
           [ArgString (IndexSchema.Name (IndexSchema.mk "age" false false other_indexer))])
  ∨ (∃ v, IndexSchema.Indexer (IndexSchema.mk "age" false false other_indexer) = Some v
          ∧ implSingleIndexer v = false ∧ implMultiIndexer v = false
          ∧ Errorf "indexer for '%s' must be a SingleIndexer or MultiIndexer"
              [ArgString "age"]
            = Errorf "indexer for '%s' must be a SingleIndexer or MultiIndexer"
                [ArgString (IndexSchema.Name (IndexSchema.mk "age" false false other_indexer))]).
Proof.
  apply (proj2 table_error_is_real (IndexSchema.mk "age" false false other_indexer)).
  reflexivity.
Defined.

(* ===================================================================== *)
(** ** Root keys of names of equal length *)
(* ===================================================================== *)

Lemma indexPath_length (table index : string) :
  String.length (indexPath table index)
  = S (String.length table + String.length index).
Proof.
  induction table as [|c table IH].
  - reflexivity.
  - rewrite indexPath_cons. simpl. by rewrite IH.
Qed.

Lemma indexPath_inj_length (t1 i1 t2 i2 : string) :
  String.length t1 = String.length t2 →
  indexPath t1 i1 = indexPath t2 i2 → t1 = t2 ∧ i1 = i2.
Proof.
  revert t2.
  induction t1 as [|c1 t1 IH]; intros [|c2 t2]; simpl; intros Hlen;
    try discriminate; rewrite ?indexPath_nil, ?indexPath_cons; intros Heq.
  - by injection Heq as ->.
  - injection Heq as <- Heq. injection Hlen as Hlen.
    destruct (IH t2 Hlen Heq) as [-> ->]. done.
Qed.

(** X10: two pairs whose table names have the same length, or whose index
    names have the same length, get the same root key only when they are
    the same pair.  So two indexes of one table never share a root key,
    nor do the indexes of one name (["id"], say) of two tables, whatever
    bytes the names hold. *)
Theorem indexPath_injective_same_length (t1 i1 t2 i2 : string) :
  String.length t1 = String.length t2 ∨ String.length i1 = String.length i2 →
  indexPath t1 i1 = indexPath t2 i2 →
  t1 = t2 ∧ i1 = i2.
Proof.
  intros Hlen Heq. apply indexPath_inj_length; [|done].
  destruct Hlen as [Hlen|Hlen]; [done|].
  pose proof (f_equal String.length Heq) as Hl.
  rewrite !indexPath_length in Hl. lia.
Qed.

Lemma indexPath_injective_same_length_witness :
  "a.b" = "a.b" ∧ "c.d" = "c.d".
Proof.
  apply (indexPath_injective_same_length "a.b" "c.d" "a.b" "c.d").
  - left. reflexivity.
  - reflexivity.
Defined.

(* ===================================================================== *)
(** ** One tree for each declared index *)
(* ===================================================================== *)

Lemma index_paths_NoDup (tName : string) (l : GoMap.t (option IndexSchema.t)) :
  GoMap.keys_unique l → NoDup (index_paths tName l).
Proof.
  unfold GoMap.keys_unique.
  induction l as [|[k ix] l IH]; simpl; intros Hnd; [apply NoDup_nil_2|].
  apply NoDup_cons in Hnd as [Hk Hnd].
  change (index_paths tName ((k, ix) :: l))
    with (indexPath tName k :: index_paths tName l).
  apply NoDup_cons. split; [|by apply IH].
  intros Hin. apply elem_of_index_paths in Hin as (iName & ix' & Hin & Heq).
  apply indexPath_inj_length in Heq as [_ ->]; [|done].
  apply Hk. apply list_elem_of_fmap. by exists (iName, ix').
Qed.

Lemma declared_paths_NoDup (l : GoMap.t (option TableSchema.t)) :
  GoMap.keys_unique l →
  index_keys_unique l →
  (∀ name tb, (name, tb) ∈ l → has_dot name = false) →
  NoDup (declared_paths l).
Proof.
  unfold GoMap.keys_unique, index_keys_unique.
  induction l as [|[tName tb] l IH]; simpl; intros Hnd Hu Hdot; [apply NoDup_nil_2|].
  apply NoDup_cons in Hnd as [Hk Hnd].
  assert (NoDup (declared_paths l)) as Hrest.
  { apply IH; [done| |].
    - intros k t Hin. apply (Hu k). by right.
    - intros name tb' Hin. apply (Hdot name tb'). by right. }
  destruct tb as [ts|]; [|done].
  apply NoDup_app. split; [|split; [|done]].
  - apply index_paths_NoDup. apply (Hu tName). left.
  - intros x Hx Hx'.
    apply elem_of_index_paths in Hx as (iName & ix & Hin & ->).
    apply elem_of_declared_paths in Hx' as (tName' & ts' & iName' & ix' & Hin' & _ & Heq).
    apply indexPath_inj_tables in Heq as [-> _].
    + apply Hk. apply list_elem_of_fmap. by exists (tName', Some ts').
    + apply (Hdot tName (Some ts)). left.
    + apply (Hdot tName' (Some ts')). by right.
Qed.

(** X11: when the table map and the index maps of a valid schema hold no
    key twice and no table name holds a ['.'], the root that [NewMemDB]
    builds has as many keys as the schema declares indexes: every
    declared index has a tree of its own. *)
Theorem NewMemDB_one_tree_per_index (V : Type) (h : MemDB.heap V)
    (s : DBSchema.t) :
  DBSchema.Validate (Some s) = Return nil_error →
  GoMap.keys_unique (DBSchema.Tables s) →
  index_keys_unique (DBSchema.Tables s) →
  (∀ name tb, (name, tb) ∈ DBSchema.Tables s → has_dot name = false) →
  ∃ l h' db r,
    MemDB.NewMemDB (Some s) h = Return ((Some l, nil_error), h')
    ∧ h' !! l = Some db
    ∧ MemDB.root db = Some r
    ∧ size r = List.length (declared_paths (DBSchema.Tables s)).
Proof.
  intros Hv Hnd Hu Hdot.
  destruct (NewMemDB_valid (V:=V) s h Hv) as (r & Hr & ->).
  eexists _, _, _, r. split; [reflexivity|].
  split; [by rewrite lookup_insert_eq|]. split; [done|].
  assert (dom r = list_to_set (declared_paths (DBSchema.Tables s))) as Hdom.
  { apply set_eq. intros k.
    rewrite elem_of_dom, elem_of_list_to_set, (rangeTables_lookup _ _ _ k Hr).
    destruct (decide _) as [Hin|Hnin].
    - split; [done|eauto].
    - unfold iradix.New. rewrite lookup_empty. split; [by intros [? ?]|done]. }
  rewrite <- size_dom, Hdom. apply size_list_to_set.
  by apply declared_paths_NoDup.
Qed.

Lemma NewMemDB_one_tree_per_index_witness :
  ∃ l h' db r,
    MemDB.NewMemDB (V:=nat) (Some users_schema) ∅ = Return ((Some l, nil_error), h')
    ∧ h' !! l = Some db
    ∧ MemDB.root db = Some r
    ∧ size r = List.length (declared_paths (DBSchema.Tables users_schema)).
Proof.
  apply (NewMemDB_one_tree_per_index nat ∅ users_schema).
  - reflexivity.
  - unfold GoMap.keys_unique. simpl. apply NoDup_singleton.
  - exact (proj1 users_schema_keys_unique).
  - intros name tb Hin. list_cases Hin. reflexivity.
Defined.

(* ===================================================================== *)
(** ** Opening transactions *)
(* ===================================================================== *)

Section Transactions.
Context {V : Type}.
Implicit Types (h : MemDB.heap V) (d : MemDB.t V)
  (r : gmap string (gmap string V)).

Lemma Txn_read (l : positive) h d r :
  h !! l = Some d → MemDB.root d = Some r →
  MemDB_Txn (Some l) false h = Finishes (Return (Txn.mk (Some l) false r, h)).
Proof.
  intros Hl Hr. unfold MemDB_Txn, MemDB.getRoot, MemDB.mbind, MemDB.load, MemDB.ret.
  rewrite Hl. simpl. rewrite Hr. reflexivity.
Qed.

Lemma Txn_read_nil_root (l : positive) h d :
  h !! l = Some d → MemDB.root d = None →
  MemDB_Txn (Some l) false h = Finishes Panic.
Proof.
  intros Hl Hr. unfold MemDB_Txn, MemDB.getRoot, MemDB.mbind, MemDB.load, MemDB.ret.
  rewrite Hl. simpl. rewrite Hr. reflexivity.
Qed.

Lemma Txn_write_free (l : positive) h d r :
  h !! l = Some d → MemDB.writer d = Unlocked → MemDB.root d = Some r →
  MemDB_Txn (Some l) true h
  = Finishes (Return (Txn.mk (Some l) true r,
                      <[l := MemDB.mk (MemDB.schema d) (Some r)
                                      (MemDB.primary d) Locked]> h)).
Proof.
  intros Hl Hw Hr. unfold MemDB_Txn, MemDB.getRoot, MemDB.mbind, MemDB.load, MemDB.ret.
  rewrite Hl, Hw, Hr. simpl. rewrite lookup_insert_eq. reflexivity.
Qed.

Lemma Txn_write_free_nil_root (l : positive) h d :
  h !! l = Some d → MemDB.writer d = Unlocked → MemDB.root d = None →
  MemDB_Txn (Some l) true h = Finishes Panic.
Proof.
  intros Hl Hw Hr. unfold MemDB_Txn, MemDB.getRoot, MemDB.mbind, MemDB.load, MemDB.ret.
  rewrite Hl, Hw, Hr. simpl. rewrite lookup_insert_eq. reflexivity.
Qed.

Lemma Txn_write_held (l : positive) h d :
  h !! l = Some d → MemDB.writer d = Locked →
  MemDB_Txn (Some l) true h = Blocks.
Proof. intros Hl Hw. unfold MemDB_Txn. rewrite Hl, Hw. reflexivity. Qed.
End Transactions.

(** X12: on a database whose root is not nil and whose writer mutex is
    free, [Txn(true)] returns a write transaction over the current root
    and changes nothing but the mutex, which it leaves held.  From then
    on a further [Txn(true)] on that database blocks, while [Txn(false)]
    still returns a read transaction over the same root and changes
    nothing.  On a database whose root is nil (one that [NewMemDB] did
    not build) neither call returns a transaction: [Txn(false)] panics,
    and [Txn(true)] panics once it has the mutex. *)
Theorem Txn_write_excludes_writers (V : Type) (h : MemDB.heap V) (l : positive)
    (d : MemDB.t V) :
  h !! l = Some d →
  (∀ r, MemDB.root d = Some r → MemDB.writer d = Unlocked →
     ∃ h1,
       h1 = <[l := MemDB.mk (MemDB.schema d) (Some r) (MemDB.primary d) Locked]> h
       ∧ MemDB_Txn (Some l) true h
         = Finishes (Return (Txn.mk (Some l) true r, h1))
       ∧ MemDB_Txn (Some l) true h1 = Blocks
       ∧ MemDB_Txn (Some l) false h1
         = Finishes (Return (Txn.mk (Some l) false r, h1)))
  ∧ (MemDB.root d = None →
     MemDB_Txn (Some l) false h = Finishes Panic
     ∧ (MemDB.writer d = Unlocked → MemDB_Txn (Some l) true h = Finishes Panic)
     ∧ (MemDB.writer d = Locked → MemDB_Txn (Some l) true h = Blocks)).
Proof.
  intros Hl. split.
  - intros r Hr Hw. eexists. split; [reflexivity|].
    split; [by apply Txn_write_free|]. split.
    + eapply Txn_write_held; [apply lookup_insert_eq|done].
    + eapply Txn_read; [apply lookup_insert_eq|done].
  - intros Hr. split; [by eapply Txn_read_nil_root|]. split; intros Hw.
    + by eapply Txn_write_free_nil_root.
    + by eapply Txn_write_held.
Qed.

Lemma Txn_write_excludes_writers_witness :
  (∃ h1,
     h1 = <[1%positive := MemDB.mk (Some users_schema) (Some ∅) true Locked]>
            {[1%positive := users_db]}
     ∧ MemDB_Txn (Some 1%positive) true {[1%positive := users_db]}
       = Finishes (Return (Txn.mk (Some 1%positive) true ∅, h1))
     ∧ MemDB_Txn (Some 1%positive) true h1 = Blocks
     ∧ MemDB_Txn (Some 1%positive) false h1
       = Finishes (Return (Txn.mk (Some 1%positive) false ∅, h1)))
  ∧ MemDB_Txn (Some 1%positive) true {[1%positive := zero_root_db]}
    = Finishes Panic.
Proof.
  split.
  - apply (proj1 (Txn_write_excludes_writers nat {[1%positive := users_db]}
                    1%positive users_db (lookup_singleton_eq _ _)) ∅);
      reflexivity.
  - apply (proj2 (Txn_write_excludes_writers nat {[1%positive := zero_root_db]}
                    1%positive zero_root_db (lookup_singleton_eq _ _)));
      reflexivity.
Defined.

(** X13: a snapshot has a writer mutex of its own.  [Snapshot] returns a
    new database with the root of the receiver, nil or not, and an
    unlocked mutex, and leaves the receiver as it was.  When the root is
    not nil, [Txn(true)] on the snapshot returns a write transaction over
    that root whether or not the writer mutex of the receiver is held,
    and the receiver, its mutex included, stays as it was; when the root
    is nil, [Txn(true)] on the snapshot panics. *)
Theorem Snapshot_has_own_writer (V : Type) (h : MemDB.heap V) (l : positive)
    (d : MemDB.t V) :
  h !! l = Some d →
  ∃ l' h1,
    MemDB.Snapshot (Some l) h = Return (Some l', h1)
    ∧ h1 !! l = Some d
    ∧ h1 !! l' = Some (MemDB.mk (MemDB.schema d) (MemDB.root d) false Unlocked)
    ∧ (∀ r, MemDB.root d = Some r →
         ∃ h2,
           MemDB_Txn (Some l') true h1
           = Finishes (Return (Txn.mk (Some l') true r, h2))
           ∧ h2 !! l = Some d
           ∧ h2 !! l' = Some (MemDB.mk (MemDB.schema d) (Some r) false Locked))
    ∧ (MemDB.root d = None → MemDB_Txn (Some l') true h1 = Finishes Panic).
Proof.
  intros Hl.
  assert (h !! fresh (dom h) = None) as Hfresh.
  { apply not_elem_of_dom. apply is_fresh. }
  assert (fresh (dom h) ≠ l) as Hne by congruence.
  exists (fresh (dom h)),
    (<[fresh (dom h) := MemDB.mk (MemDB.schema d) (MemDB.root d) false Unlocked]> h).
  split.
  { unfold MemDB.Snapshot, MemDB.getRoot, MemDB.mbind, MemDB.load, MemDB.ret,
      MemDB.alloc. rewrite Hl. simpl. rewrite Hl. reflexivity. }
  split; [by rewrite lookup_insert_ne|]. split; [apply lookup_insert_eq|]. split.
  - intros r Hr. eexists. split.
    { rewrite (Txn_write_free _ _
                 (MemDB.mk (MemDB.schema d) (MemDB.root d) false Unlocked) r);
        [reflexivity|apply lookup_insert_eq|reflexivity|exact Hr]. }
    simpl. split.
    + by rewrite !lookup_insert_ne.
    + by rewrite lookup_insert_eq.
  - intros Hr.
    apply (Txn_write_free_nil_root _ _
             (MemDB.mk (MemDB.schema d) (MemDB.root d) false Unlocked));
      [apply lookup_insert_eq|reflexivity|exact Hr].
Qed.

Lemma Snapshot_has_own_writer_witness :
  ∃ l' h1,
    MemDB.Snapshot (Some 1%positive) {[1%positive := stale_db]} = Return (Some l', h1)
    ∧ h1 !! 1%positive = Some stale_db
    ∧ h1 !! l' = Some (MemDB.mk (MemDB.schema stale_db) (MemDB.root stale_db)
                         false Unlocked)
    ∧ (∀ r, MemDB.root stale_db = Some r →
         ∃ h2,
           MemDB_Txn (Some l') true h1
           = Finishes (Return (Txn.mk (Some l') true r, h2))
           ∧ h2 !! 1%positive = Some stale_db
           ∧ h2 !! l' = Some (MemDB.mk (MemDB.schema stale_db) (Some r) false Locked))
    ∧ (MemDB.root stale_db = None → MemDB_Txn (Some l') true h1 = Finishes Panic).
Proof.
  apply (Snapshot_has_own_writer nat {[1%positive := stale_db]} 1%positive stale_db).
  reflexivity.
Defined.

(* ===================================================================== *)
(** ** Filters over filters, and the calls of the predicate *)
(* ===================================================================== *)

Section FilterMore.
Context {V : Type}.
Implicit Types (p q : FilterFunc V) (l : list V).

Lemma skip_either p1 p2 l :
  skip_rejected (either p1 p2) l
  = skip_rejected (either p1 p2) (skip_rejected p1 l).
Proof.
  unfold either. induction l as [|x l IH]; simpl; [done|].
  destruct (p1 (Some x)) eqn:Hp1; simpl; [exact IH|]. by rewrite Hp1.
Qed.

Lemma skip_rejected_head p l x l' :
  skip_rejected p l = x :: l' → p (Some x) = false.
Proof.
  induction l as [|y l IH]; simpl; [discriminate|].
  destruct (p (Some y)) eqn:Hp; [done|]. by intros [= <- <-].
Qed.

Lemma survivors_either p1 p2 l :
  survivors (either p1 p2) l = survivors p2 (survivors p1 l).
Proof.
  unfold survivors, either. induction l as [|x l IH]; simpl; [done|].
  destruct (p1 (Some x)); simpl; [done|].
  destruct (p2 (Some x)); simpl; by rewrite IH.
Qed.

Lemma Next_S {I : Type} `{ResultIterator.C I V} (fuel : nat)
    (f : FilterIterator.t V I) :
  FilterIterator.Next (S fuel) f
  = let (value, it') := ResultIterator.Next (FilterIterator.iter f) in
    let f' := FilterIterator.mk (FilterIterator.filter f) it' in
    match value with
    | None => ([], Some (value, f'))
    | Some _ =>
        if negb (FilterIterator.filter f value) then ([value], Some (value, f'))
        else
          let (calls, r) := FilterIterator.Next fuel f' in
          (value :: calls, r)
    end.
Proof. reflexivity. Qed.

Lemma filter_list_Next p l :
  ResultIterator.Next (FilterIterator.mk p l)
  = match (FilterIterator.Next (S (List.length l)) (FilterIterator.mk p l)).2 with
    | Some r => r
    | None => (None, FilterIterator.mk p l)
    end.
Proof. reflexivity. Qed.

Lemma Next_nested p1 p2 : ∀ m l fuel,
  (List.length l ≤ m)%nat → List.length l < fuel →
  (FilterIterator.Next fuel (FilterIterator.mk p2 (FilterIterator.mk p1 l))).2
  = Some match skip_rejected (either p1 p2) l with
         | [] => (None, FilterIterator.mk p2 (FilterIterator.mk p1 []))
         | x :: l' => (Some x, FilterIterator.mk p2 (FilterIterator.mk p1 l'))
         end.
Proof.
  induction m as [|m IH]; intros l [|fuel] Hm Hfuel; try lia.
  - destruct l; [|simpl in Hm; lia]. reflexivity.
  - rewrite Next_S. cbn [FilterIterator.iter FilterIterator.filter].
    rewrite filter_list_Next, (Next_list p1 l) by lia.
    rewrite (skip_either p1 p2 l).
    destruct (skip_rejected p1 l) as [|x l'] eqn:Hskip; [done|].
    pose proof (skip_rejected_head _ _ _ _ Hskip) as Hp1.
    pose proof (skip_rejected_length _ _ _ _ Hskip) as Hlen.
    cbn [skip_rejected]. unfold either at 1. rewrite Hp1. cbn [orb].
    destruct (p2 (Some x)) eqn:Hp2; cbn [negb]; [|done].
    specialize (IH l' fuel ltac:(lia) ltac:(lia)).
    destruct (FilterIterator.Next fuel _) as [calls r]. exact IH.
Qed.

(** Successive calls on a filter whose every call returns the first value
    of a list that [q] does not reject and moves on to the rest. *)
Lemma drain_by_skip {I : Type} `{ResultIterator.C I V} q
    (st : list V → FilterIterator.t V I) fuel n :
  (∀ l, List.length l < fuel →
     (FilterIterator.Next fuel (st l)).2
     = Some match skip_rejected q l with
            | [] => (None, st [])
            | x :: l' => (Some x, st l')
            end) →
  ∀ m l, (List.length l ≤ m)%nat → List.length l < fuel →
    drain fuel (List.length (survivors q l) + n) (st l)
    = ((Some <$> survivors q l) ++ replicate n None)%list.
Proof.
  intros Hnext.
  assert (0 < fuel → ∀ k, drain fuel k (st []) = replicate k None) as Hnil.
  { intros Hfuel. induction k as [|k IHk]; simpl; [done|].
    rewrite (Hnext []) by (simpl; lia). simpl. by rewrite IHk. }
  induction m as [|m IH]; intros l Hm Hfuel.
  - destruct l; [|simpl in Hm; lia]. simpl. apply Hnil. lia.
  - rewrite (survivors_skip q l).
    destruct (skip_rejected q l) as [|x l'] eqn:Hskip; simpl.
    + destruct n as [|n]; simpl; [done|].
      rewrite Hnext, Hskip by done. simpl. rewrite Hnil by lia. done.
    + rewrite Hnext, Hskip by done. simpl.
      apply skip_rejected_length in Hskip. rewrite IH by lia. done.
Qed.

Lemma Next_list_calls p l : ∀ fuel,
  List.length l < fuel →
  (FilterIterator.Next fuel (FilterIterator.mk p l)).1 = Some <$> pulled p l.
Proof.
  induction l as [|x l IH]; intros [|fuel] Hlt; simpl in *; try lia; [done|].
  destruct (p (Some x)) eqn:Hp; simpl; [|done].
  specialize (IH fuel ltac:(lia)).
  destruct (FilterIterator.Next fuel (FilterIterator.mk p l)) as [calls r].
  simpl in *. by rewrite IH.
Qed.

Lemma pulled_skip p l :
  l = (pulled p l ++ match skip_rejected p l with
                     | [] => []
                     | _ :: l' => l'
                     end)%list.
Proof.
  induction l as [|x l IH]; simpl; [done|].
  destruct (p (Some x)); simpl; [|done]. by rewrite <- IH.
Qed.

Lemma drain_calls_exhausted p fuel n :
  0 < fuel → drain_calls fuel n (FilterIterator.mk p ([] : list V)) = [].
Proof.
  intros Hfuel. destruct fuel as [|fuel]; [lia|].
  induction n as [|n IH]; simpl; [done|]. exact IH.
Qed.

Lemma drain_calls_list p fuel : ∀ m l n,
  (List.length l ≤ m)%nat → List.length l < fuel →
  List.length (survivors p l) < n →
  drain_calls fuel n (FilterIterator.mk p l) = Some <$> l.
Proof.
  induction m as [|m IH]; intros l [|n] Hm Hfuel Hn; try lia.
  - destruct l; [|simpl in Hm; lia]. by apply drain_calls_exhausted.
  - cbn [drain_calls]. pose proof (Next_list_calls p l fuel Hfuel) as Hc.
    pose proof (Next_list p l fuel Hfuel) as Hr.
    destruct (FilterIterator.Next fuel (FilterIterator.mk p l)) as [calls r].
    simpl in Hc, Hr. subst calls r.
    rewrite (survivors_skip p l) in Hn. pose proof (pulled_skip p l) as Hl.
    destruct (skip_rejected p l) as [|x l'] eqn:Hskip.
    + rewrite drain_calls_exhausted by lia.
      rewrite app_nil_r in Hl. rewrite app_nil_r. by rewrite <- Hl.
    + apply skip_rejected_length in Hskip. simpl in Hn.
      rewrite IH by lia. rewrite <- fmap_app. by rewrite <- Hl.
Qed.
End FilterMore.

(** X14: filters compose.  A filter with predicate [p2] built by
    [NewFilterIterator] around a filter with predicate [p1] over the
    values of a list returns, call after call, the values that neither
    predicate rejects, in the order of the list, and nil on every call
    after them: what one filter with the predicate "[p1] or [p2]"
    returns. *)
Theorem nested_filters_compose (V : Type) (p1 p2 : FilterFunc V) (l : list V)
    (n fuel : nat) :
  List.length l < fuel →
  drain fuel (List.length (survivors p2 (survivors p1 l)) + n)
    (FilterIterator.NewFilterIterator (FilterIterator.NewFilterIterator l p1) p2)
  = ((Some <$> survivors p2 (survivors p1 l)) ++ replicate n None)%list
  ∧ drain fuel (List.length (survivors p2 (survivors p1 l)) + n)
      (FilterIterator.NewFilterIterator (FilterIterator.NewFilterIterator l p1) p2)
    = drain fuel (List.length (survivors (either p1 p2) l) + n)
        (FilterIterator.NewFilterIterator l (either p1 p2)).
Proof.
  intros Hfuel. unfold FilterIterator.NewFilterIterator.
  rewrite <- survivors_either.
  rewrite (drain_by_skip (either p1 p2)
             (λ l, FilterIterator.mk p2 (FilterIterator.mk p1 l)) fuel n)
    with (m := List.length l); [|intros l' Hl'|done|done].
  2:{ by apply (Next_nested p1 p2 (List.length l')). }
  split; [done|].
  by rewrite (drain_list (either p1 p2) fuel n (List.length l)).
Qed.

Lemma nested_filters_compose_witness :
  drain 7 (List.length (survivors reject_threes (survivors reject_even [1; 2; 3; 4; 5; 6]%Z)) + 2)
    (FilterIterator.NewFilterIterator
       (FilterIterator.NewFilterIterator [1; 2; 3; 4; 5; 6]%Z reject_even) reject_threes)
  = ((Some <$> survivors reject_threes (survivors reject_even [1; 2; 3; 4; 5; 6]%Z))
     ++ replicate 2 None)%list
  ∧ drain 7 (List.length (survivors reject_threes (survivors reject_even [1; 2; 3; 4; 5; 6]%Z)) + 2)
      (FilterIterator.NewFilterIterator
         (FilterIterator.NewFilterIterator [1; 2; 3; 4; 5; 6]%Z reject_even) reject_threes)
    = drain 7 (List.length (survivors (either reject_even reject_threes) [1; 2; 3; 4; 5; 6]%Z) + 2)
        (FilterIterator.NewFilterIterator [1; 2; 3; 4; 5; 6]%Z
           (either reject_even reject_threes)).
Proof.
  apply (nested_filters_compose Z reject_even reject_threes [1; 2; 3; 4; 5; 6]%Z 2 7).
  simpl. lia.
Defined.

(** X15: over the values of a list, a filter calls its predicate once
    with each value, in the order of the list: by the time it has
    returned nil, the arguments of all calls of the predicate are the
    values of the list, each once. *)
Theorem predicate_called_once_per_value (V : Type) (p : FilterFunc V)
    (l : list V) (n fuel : nat) :
  List.length l < fuel →
  List.length (survivors p l) < n →
  drain_calls fuel n (FilterIterator.mk p l) = Some <$> l.
Proof.
  intros Hfuel Hn. by apply (drain_calls_list p fuel (List.length l)).
Qed.

Lemma predicate_called_once_per_value_witness :
  drain_calls 5 3 (FilterIterator.mk reject_even [1; 2; 3; 4]%Z)
  = Some <$> [1; 2; 3; 4]%Z.
Proof.
  apply (predicate_called_once_per_value Z reject_even [1; 2; 3; 4]%Z 3 5).
  - simpl. lia.
  - simpl. lia.
Defined.

(* ===================================================================== *)
(** ** Changes that are none of the three kinds *)
(* ===================================================================== *)

(** X16: the three predicates do not cover every change record: none of
    [Created], [Updated] and [Deleted] holds exactly when both [Before]
    and [After] are nil; of every other record exactly one holds. *)
Theorem change_predicates_cover (V : Type) (m : Change.t V) :
  (Change.Created m = false ∧ Change.Updated m = false ∧ Change.Deleted m = false
   ↔ Change.Before m = None ∧ Change.After m = None)
  ∧ (Change.Before m ≠ None ∨ Change.After m ≠ None →
     Change.Created m || Change.Updated m || Change.Deleted m = true).
Proof.
  unfold Change.Created, Change.Updated, Change.Deleted.
  destruct m as [tbl [b|] [a|] pk]; simpl; split; try done;
    try (split; [intros (? & ? & ?)|intros [? ?]]; congruence).
  intros [?|?]; congruence.
Qed.
